(** * rxntorch: vocabulary building, shard splitting and the reactivity
      training loop

    A shallow embedding of [rxntorch/containers/dataset.py] (Part I,
    module [Dataset]) and of [rxntorch/models/reactivity_network.py]
    (Part II, module [Reactivity]), followed by what is proved about them
    (Parts III to V).  Python objects become records, [try/except] blocks
    become [option] results, mutable attributes and loop variables become
    explicit state, and the collaborators whose code lives outside the
    repository (the SMILES parser, the graph layers, autograd and Adam)
    are taken as parameters.  Floats are exact: rationals where they are
    compared, reals where the loss takes logarithms. *)

From Stdlib Require Import String Ascii.
From Stdlib Require Import List Arith ZArith QArith Lia Bool.
From Stdlib Require Import Permutation Sorted Reals Qreals Lqa Lra.
From Stdlib Require DecimalString DecimalZ DecimalPos.
Import ListNotations.

(** Python's [enumerate]: the elements of a list with their positions. *)
Definition enumerate {A : Type} (l : list A) : list (nat * A) :=
  combine (seq 0%nat (length l)) l.

(* ################################################################# *)
(** * Part I: [rxntorch/containers/dataset.py] *)

Module Dataset.

Local Open Scope string_scope.
Local Open Scope list_scope.
Local Open Scope nat_scope.

Definition token := string.

(** ** Python containers *)

(** A [dict] from tokens to counts.  Python dictionaries iterate in
    insertion order, and [sorted] over one is stable, so the order of the
    keys matters: the dictionary is an association list in insertion
    order, with at most one entry per key. *)
Definition dict := list (token * nat).

Definition keys (d : dict) : list token := map fst d.

Fixpoint dict_get (d : dict) (t : token) : option nat :=
  match d with
  | [] => None
  | (k, n) :: d' => if String.eqb k t then Some n else dict_get d' t
  end.

(** [if t in d: d[t] += 1  else: d[t] = 1]: an existing key keeps its
    place, a new key goes last. *)
Fixpoint dict_incr (t : token) (d : dict) : dict :=
  match d with
  | [] => [(t, 1)]
  | (k, n) :: d' =>
      if String.eqb k t then (k, S n) :: d' else (k, n) :: dict_incr t d'
  end.

(** The two counting loops of [create_vocab]
    ([for reactant_token in reactant_list: ...]). *)
Definition count_tokens (d : dict) (toks : list token) : dict :=
  fold_left (fun acc t => dict_incr t acc) toks d.

(** [error_rsmi.update({i: s})] on a dictionary from reaction indices to
    reaction strings. *)
Definition error_map := list (nat * string).

Fixpoint error_update (i : nat) (s : string) (m : error_map) : error_map :=
  match m with
  | [] => [(i, s)]
  | (k, v) :: m' =>
      if Nat.eqb k i then (k, s) :: m' else (k, v) :: error_update i s m'
  end.

(** [list.pop()]: drops the last element, [IndexError] on the empty list. *)
Definition pop {A : Type} (l : list A) : option (list A) :=
  match l with
  | [] => None
  | _ => Some (removelast l)
  end.

(** [l.index(x)]: position of the first occurrence, [ValueError] when
    there is none. *)
Fixpoint index (l : list token) (x : token) : option nat :=
  match l with
  | [] => None
  | y :: l' =>
      if String.eqb y x then Some 0
      else match index l' x with
           | Some n => Some (S n)
           | None => None
           end
  end.

(** [s.split('.')]: the pieces between the dots; the empty string gives
    one empty piece. *)
Fixpoint split_dot (s : string) : list string :=
  match s with
  | EmptyString => [EmptyString]
  | String c r =>
      if Ascii.eqb c "."%char then EmptyString :: split_dot r
      else match split_dot r with
           | [] => [String c EmptyString]
           | w :: ws => String c w :: ws
           end
  end.

(** [sorted(d, key=d.get, reverse=True)]: the keys of [d] by descending
    count.  Python's sort is stable, also under [reverse=True]: keys with
    equal counts keep the order they have in [d]. *)
Fixpoint insert_desc (x : token * nat) (l : list (token * nat)) :
  list (token * nat) :=
  match l with
  | [] => [x]
  | y :: l' =>
      if Nat.leb (snd y) (snd x) then x :: y :: l' else y :: insert_desc x l'
  end.

Definition sort_desc (d : dict) : list (token * nat) :=
  fold_right insert_desc [] d.

Definition sorted_by_count (d : dict) : list token := map fst (sort_desc d).

(** ** The data model *)

(** A reaction ([Rxn], defined in [rxntorch/containers/reaction.py]) as
    far as the dataset reads it: its reaction string and the SMILES of its
    reactant, reagent and product molecules ([mol.smile]). *)
Record Rxn := mkRxn {
  smile : string;
  rxn_reactants : list string;
  rxn_reagents : list string;
  rxn_products : list string
}.

(** The attributes of an [RxnDataset] object.  [__init__] assigns [rxns]
    and the two empty vocabularies.  [create_vocab] reads
    [self.reactants], [self.reagents] and [self.products] (one
    dot-separated string per reaction) and [tokenize_data] reads
    [self.reactant_token_list] and [self.product_token_list]; no method of
    the class assigns them, so each is optional here: [None] is the
    missing attribute, whose access raises [AttributeError]. *)
Record RxnDataset := mkRxnDataset {
  rxns : list Rxn;
  vocab_reactants : dict;
  vocab_products : dict;
  reactants : option (list string);
  reagents : option (list string);
  products : option (list string);
  reactants_token_list : option (list token);
  products_token_list : option (list token);
  reactant_token_list : option (list token);
  product_token_list : option (list token)
}.

(** [RxnDataset.__init__] on the reactions read from the file. *)
Definition init (rs : list Rxn) : RxnDataset :=
  mkRxnDataset rs [] [] None None None None None None None.

(** The [rxn_smiles] property. *)
Definition rxn_smiles (ds : RxnDataset) : list string := map smile (rxns ds).

Definition _PAD : token := "_PAD".
Definition _GO : token := "_GO".
Definition _EOS : token := "_EOS".
Definition _START_VOCAB : list token := [_PAD; _GO; _EOS].

Definition PAD_ID := 0.
Definition GO_ID := 1.
Definition EOS_ID := 2.

Section WithParser.

(** [sp.parser_list], the SMILES tokenizer of [rxntorch.smiles_parser]:
    the tokens of one molecule string, or [None] when it raises. *)
Variable parser_list : string -> option (list token).

(** [for m in mols: lst += sp.parser_list(m); lst += '.'] *)
Definition parse_mols (mols : list string) : option (list token) :=
  fold_left
    (fun acc m =>
       match acc with
       | Some lst =>
           match parser_list m with
           | Some ts => Some (lst ++ ts ++ ["."])
           | None => None
           end
       | None => None
       end)
    mols (Some []).

(** What follows the three loops in both methods: the three [pop()]s,
    then [reactant_list += '>'] and [reactant_list += reagent_list].  The
    result is the reactant-side and the product-side token list. *)
Definition join_lists (reactant_list reagent_list product_list : list token) :
  option (list token * list token) :=
  match pop reactant_list, pop reagent_list, pop product_list with
  | Some rl, Some gl, Some pl => Some (rl ++ [">"] ++ gl, pl)
  | _, _, _ => None
  end.

(** ** [create_vocab] *)

(** [self.reactants[i]]: [AttributeError] without the attribute,
    [IndexError] past its end. *)
Definition attr_nth (a : option (list string)) (i : nat) : option string :=
  match a with
  | Some l => nth_error l i
  | None => None
  end.

(** The body of the [try] up to the counting loops, for reaction [i];
    [None] when it raises.  Nothing in it writes to the object. *)
Definition vocab_tokens (ds : RxnDataset) (i : nat) :
  option (list token * list token) :=
  match attr_nth (reactants ds) i, attr_nth (reagents ds) i,
        attr_nth (products ds) i with
  | Some r, Some g, Some p =>
      match parse_mols (split_dot r), parse_mols (split_dot g),
            parse_mols (split_dot p) with
      | Some rl, Some gl, Some pl => join_lists rl gl pl
      | _, _, _ => None
      end
  | _, _, _ => None
  end.

(** The state of the loop: the two frequency dictionaries and the local
    [error_rsmi]. *)
Record vocab_state := mkVocabState {
  vs_reactants : dict;
  vs_products : dict;
  vs_errors : error_map
}.

(** One iteration of [for i in range(len(self.rxns))]. *)
Definition vocab_step (ds : RxnDataset) (st : vocab_state) (i : nat) :
  vocab_state :=
  match vocab_tokens ds i with
  | Some (reactant_list, product_list) =>
      mkVocabState (count_tokens (vs_reactants st) reactant_list)
                   (count_tokens (vs_products st) product_list)
                   (vs_errors st)
  | None =>
      mkVocabState (vs_reactants st) (vs_products st)
                   (error_update i (nth i (rxn_smiles ds) "") (vs_errors st))
  end.

Definition vocab_loop (ds : RxnDataset) : vocab_state :=
  fold_left (vocab_step ds) (seq 0 (List.length (rxns ds)))
            (mkVocabState (vocab_reactants ds) (vocab_products ds) []).

(** The method: it returns [None]; what it leaves behind is the object
    with its two dictionaries updated and the two token lists assigned.
    [error_rsmi] is a local of the method and is dropped on return. *)
Definition create_vocab (ds : RxnDataset) : RxnDataset :=
  let st := vocab_loop ds in
  mkRxnDataset (rxns ds) (vs_reactants st) (vs_products st)
               (reactants ds) (reagents ds) (products ds)
               (Some (_START_VOCAB ++ sorted_by_count (vs_reactants st)))
               (Some (_START_VOCAB ++ sorted_by_count (vs_products st)))
               (reactant_token_list ds) (product_token_list ds).

(** ** [tokenize_data] *)

(** What [pickle.dump] writes to [training_data.pkl.gz]: the two id
    sequences and the reaction string; the shards keep the first two. *)
Definition record := (list nat * list nat * string)%type.
Definition example := (list nat * list nat)%type.

(** [[self.reactant_token_list.index(r) for r in reactant_list]]: the
    attribute is looked up once per element, so an empty token list
    never touches it. *)
Fixpoint index_all (tl : option (list token)) (toks : list token) :
  option (list nat) :=
  match toks with
  | [] => Some []
  | t :: toks' =>
      match tl with
      | None => None
      | Some l =>
          match index l t, index_all tl toks' with
          | Some n, Some ns => Some (n :: ns)
          | _, _ => None
          end
      end
  end.

(** The body of the [try] up to [token_len.append], for one reaction. *)
Definition rxn_tokens (rxn : Rxn) : option (list token * list token) :=
  match parse_mols (rxn_reactants rxn), parse_mols (rxn_reagents rxn),
        parse_mols (rxn_products rxn) with
  | Some rl, Some gl, Some pl => join_lists rl gl pl
  | _, _, _ => None
  end.

(** The record [pickle.dump] is called with; both comprehensions are
    evaluated before the call, so a failing lookup writes nothing. *)
Definition rxn_record (ds : RxnDataset) (rxn : Rxn)
  (reactant_list product_list : list token) : option record :=
  match index_all (reactant_token_list ds) reactant_list,
        index_all (product_token_list ds) product_list with
  | Some rids, Some pids => Some (rids, pids, smile rxn)
  | _, _ => None
  end.

Record tokenize_state := mkTokenizeState {
  ts_training_file : list record;
  ts_token_len : list (nat * nat);
  ts_errors : error_map
}.

(** One iteration of [for i, rxn in enumerate(self.rxns)].  The lengths
    are appended before the lookups, so a reaction whose lookup fails is
    in [token_len] and in [error_rsmi] at once. *)
Definition tokenize_step (ds : RxnDataset) (st : tokenize_state)
  (irxn : nat * Rxn) : tokenize_state :=
  let (i, rxn) := irxn in
  match rxn_tokens rxn with
  | None =>
      mkTokenizeState (ts_training_file st) (ts_token_len st)
                      (error_update i (smile rxn) (ts_errors st))
  | Some (reactant_list, product_list) =>
      let token_len :=
        ts_token_len st
        ++ [(List.length reactant_list, List.length product_list)] in
      match rxn_record ds rxn reactant_list product_list with
      | Some r =>
          mkTokenizeState (ts_training_file st ++ [r]) token_len (ts_errors st)
      | None =>
          mkTokenizeState (ts_training_file st) token_len
                          (error_update i (smile rxn) (ts_errors st))
      end
  end.

Definition tokenize_loop (ds : RxnDataset) : tokenize_state :=
  fold_left (tokenize_step ds) (enumerate (rxns ds))
            (mkTokenizeState [] [] []).

(** The [cut:] statistics: four nested thresholds on the two lengths;
    the fifth counter is never touched. *)
Definition cut_step (count : list nat) (len : nat * nat) : list nat :=
  let bump k c := map (fun jc => if Nat.eqb (fst jc) k then S (snd jc)
                                 else snd jc) (enumerate c) in
  let (l0, l1) := len in
  if (l0 <? 150) && (l1 <? 80) then
    let c3 := bump 3 count in
    if (l0 <? 90) && (l1 <? 65) then
      let c2 := bump 2 c3 in
      if (l0 <? 70) && (l1 <? 60) then
        let c1 := bump 1 c2 in
        if (l0 <? 54) && (l1 <? 54) then bump 0 c1 else c1
      else c2
    else c3
  else count.

Definition cut_counts (token_len : list (nat * nat)) : list nat :=
  fold_left cut_step token_len [0; 0; 0; 0; 0].

(** The second half of the method, [while 1: ... pickle.load(data_file)]:
    the records are read back one by one, [i] counting from 1; record
    [i] goes to [train.pkl.gz] when [i % 100] is non-zero and to
    [dev.pkl.gz] otherwise.  [EOFError] (the end of the stream) leaves
    the loop. *)
Record shards := mkShards {
  train_file : list example;
  dev_file : list example;
  dev_count : nat
}.

Fixpoint split_loop (i : nat) (data_file : list record) (sh : shards) :
  shards :=
  match data_file with
  | [] => sh
  | (reactants, products, _) :: rest =>
      split_loop (S i) rest
        (if Nat.eqb (i mod 100) 0
         then mkShards (train_file sh) (dev_file sh ++ [(reactants, products)])
                       (S (dev_count sh))
         else mkShards (train_file sh ++ [(reactants, products)]) (dev_file sh)
                       (dev_count sh))
  end.

Definition split_shards (data_file : list record) : shards :=
  split_loop 1 data_file (mkShards [] [] 0).

(** What the method prints, line by line. *)
Inductive printed :=
| PrintMax (reactant_max product_max : nat)
| PrintTotal (total : nat)
| PrintCut (count : list nat)
| PrintSplit (count : nat) (rest : Z).

(** How a call ends.  The transposition [trans] of an empty [token_len]
    is the empty list, so [trans[0]] raises [IndexError] when no reaction reached
    [token_len.append]: the exception leaves the method with only
    [training_data.pkl.gz] written.  Otherwise the method returns [None]
    after writing the three files and printing four lines. *)
Inductive tokenize_result :=
| Raised (training_data : list record)
| Returned (training_data : list record) (sh : shards) (out : list printed).

Definition tokenize_data (ds : RxnDataset) : tokenize_result :=
  let st := tokenize_loop ds in
  match ts_token_len st with
  | [] => Raised (ts_training_file st)
  | _ =>
      let sh := split_shards (ts_training_file st) in
      Returned (ts_training_file st) sh
        [ PrintMax (fold_right Nat.max 0 (map fst (ts_token_len st)))
                   (fold_right Nat.max 0 (map snd (ts_token_len st)));
          PrintTotal (List.length (ts_token_len st));
          PrintCut (cut_counts (ts_token_len st));
          PrintSplit (dev_count sh)
                     (Z.of_nat (List.length (ts_token_len st))
                      - Z.of_nat (dev_count sh))%Z ]
  end.

(** ** What the loops are to compute *)

(** The reactant-side and product-side tokens [create_vocab] counts: those
    of the reactions whose [try] body runs to its end, in corpus order. *)
Definition counted_on (ds : RxnDataset) (idxs : list nat) :
  list token * list token :=
  (flat_map (fun i => match vocab_tokens ds i with
                      | Some rp => fst rp
                      | None => []
                      end) idxs,
   flat_map (fun i => match vocab_tokens ds i with
                      | Some rp => snd rp
                      | None => []
                      end) idxs).

Definition counted_reactants (ds : RxnDataset) : list token :=
  fst (counted_on ds (seq 0 (length (rxns ds)))).

Definition counted_products (ds : RxnDataset) : list token :=
  snd (counted_on ds (seq 0 (length (rxns ds)))).

(** The reactions whose [try] body raises, with their reaction strings. *)
Definition vocab_failures_on (ds : RxnDataset) (idxs : list nat) : error_map :=
  flat_map (fun i => match vocab_tokens ds i with
                     | Some _ => []
                     | None => [(i, nth i (rxn_smiles ds) ""%string)]
                     end) idxs.

Definition vocab_failures (ds : RxnDataset) : error_map :=
  vocab_failures_on ds (seq 0 (length (rxns ds))).

(** The record [tokenize_data] writes for a reaction, [None] when its
    [try] body raises before [pickle.dump]. *)
Definition tokenized (ds : RxnDataset) (rxn : Rxn) : option record :=
  match rxn_tokens rxn with
  | Some rp => rxn_record ds rxn (fst rp) (snd rp)
  | None => None
  end.

Definition emitted_on (ds : RxnDataset) (irs : list (nat * Rxn)) : list record :=
  flat_map (fun ir => match tokenized ds (snd ir) with
                      | Some r => [r]
                      | None => []
                      end) irs.

Definition tokenize_failures_on (ds : RxnDataset) (irs : list (nat * Rxn)) :
  error_map :=
  flat_map (fun ir => match tokenized ds (snd ir) with
                      | Some _ => []
                      | None => [(fst ir, smile (snd ir))]
                      end) irs.

Definition emitted (ds : RxnDataset) : list record :=
  emitted_on ds (enumerate (rxns ds)).

Definition tokenize_failures (ds : RxnDataset) : error_map :=
  tokenize_failures_on ds (enumerate (rxns ds)).

End WithParser.

(** ** Vocabulary of the statements, and a small corpus *)

(** [d.get(t, 0)] *)
Definition count (d : dict) (t : token) : nat :=
  match dict_get d t with Some n => n | None => 0 end.

(** [x] stands somewhere before [y] in [l]. *)
Definition precedes {A : Type} (l : list A) (x y : A) : Prop :=
  exists l1 l2 l3, l = l1 ++ x :: l2 ++ y :: l3.

(** The order [sort_desc] sorts by. *)
Definition count_ge (x y : token * nat) : Prop := snd y <= snd x.

(** [a] is seen in [observed] before [b] is seen for the first time. *)
Definition first_seen_before (observed : list token) (a b : token) : Prop :=
  a <> b /\
  exists l1 l2, observed = l1 ++ a :: l2 /\ ~ In a l1 /\ ~ In b l1.

(** [token_list] is the three reserved tokens followed by every token of
    [observed] once, by descending number of occurrences. *)
Definition ranking_of (observed : list token)
  (token_list : option (list token)) : Prop :=
  exists ranked,
    token_list = Some (_PAD :: _GO :: _EOS :: ranked)
    /\ length (_PAD :: _GO :: _EOS :: ranked)
       = 3 + length (nodup string_dec observed)
    /\ NoDup ranked
    /\ (forall t, In t ranked <-> In t observed)
    /\ StronglySorted
         (fun a b => count_occ string_dec observed b
                     <= count_occ string_dec observed a) ranked.

(** What a shard keeps of a record. *)
Definition strip (r : record) : example := (fst (fst r), snd (fst r)).

(** The records of a stream with their positions, counted from [start]. *)
Definition numbered (start : nat) (data_file : list record) :
  list (nat * record) :=
  combine (seq start (length data_file)) data_file.

(** The records at the positions that satisfy [p], stripped, in stream
    order. *)
Definition at_positions (p : nat -> bool) (start : nat)
  (data_file : list record) : list example :=
  map (fun ir => strip (snd ir))
      (filter (fun ir => p (fst ir)) (numbered start data_file)).

Definition hundredth (i : nat) : bool := Nat.eqb (i mod 100) 0.

(** A stand-in for the SMILES tokenizer: every character is a token, and
    an opening bracket (which a SMILES parser has to see closed) makes it
    raise. *)
Fixpoint sample_parser (s : string) : option (list token) :=
  match s with
  | EmptyString => Some []
  | String c r =>
      if Ascii.eqb c "["%char then None
      else option_map (cons (String c EmptyString)) (sample_parser r)
  end.

Definition sample_rxns : list Rxn :=
  [ mkRxn "CC.O>N>CCO" ["CC"; "O"] ["N"] ["CCO"];
    mkRxn "C[.O>N>CO" ["C["; "O"] ["N"] ["CO"];
    mkRxn "CO>N>OC" ["CO"] ["N"] ["OC"] ]%string.

(** The corpus with the attributes [create_vocab] reads filled in, and
    with the token lists [tokenize_data] reads. *)
Definition sample_dataset : RxnDataset :=
  mkRxnDataset sample_rxns [] []
    (Some ["CC.O"; "C[.O"; "CO"]%string)
    (Some ["N"; "N"; "N"]%string)
    (Some ["CCO"; "CO"; "OC"]%string)
    None None
    (Some ["_PAD"; "_GO"; "_EOS"; "C"; "O"; ">"; "N"; "."]%string)
    (Some ["_PAD"; "_GO"; "_EOS"; "C"; "O"]%string).

(** The same corpus without the reaction that does not tokenize. *)
Definition sample_dataset_clean : RxnDataset :=
  mkRxnDataset
    [ mkRxn "CC.O>N>CCO" ["CC"; "O"] ["N"] ["CCO"];
      mkRxn "CO>N>OC" ["CO"] ["N"] ["OC"] ]%string
    [] []
    (Some ["CC.O"; "CO"]%string)
    (Some ["N"; "N"]%string)
    (Some ["CCO"; "OC"]%string)
    None None
    (Some ["_PAD"; "_GO"; "_EOS"; "C"; "O"; ">"; "N"; "."]%string)
    (Some ["_PAD"; "_GO"; "_EOS"; "C"; "O"]%string).

(** What [create_vocab] leaves for its caller: it returns [None] and
    assigns four attributes. *)
Definition create_vocab_writes (ds : RxnDataset) :=
  (vocab_reactants ds, vocab_products ds,
   reactants_token_list ds, products_token_list ds).

(** [info] about a dataset can be read off what a method hands to its
    caller. *)
Definition reported {A B : Type} (visible : RxnDataset -> A)
  (info : RxnDataset -> B) : Prop :=
  exists report : A -> B, forall ds, report (visible ds) = info ds.

(** Two dataset objects hold the same corpus. *)
Definition same_corpus (ds1 ds2 : RxnDataset) : Prop :=
  rxns ds1 = rxns ds2 /\ reactants ds1 = reactants ds2
  /\ reagents ds1 = reagents ds2 /\ products ds1 = products ds2.

(** Among the ranked tokens of [token_list], tokens of equal frequency
    stand in the order in which [observed] shows them first. *)
Definition ties_by_first_seen (observed : list token)
  (token_list : option (list token)) : Prop :=
  exists ranked,
    token_list = Some (_START_VOCAB ++ ranked)
    /\ forall a b,
         In b observed ->
         count_occ string_dec observed a = count_occ string_dec observed b ->
         first_seen_before observed a b ->
         precedes ranked a b.

(** The sample corpus in an object on which [create_vocab] has not run
    and no token list is set. *)
Definition sample_dataset_bare : RxnDataset :=
  mkRxnDataset sample_rxns [] []
    (reactants sample_dataset) (reagents sample_dataset)
    (products sample_dataset) None None None None.

(** A stream of 100 records, the [k]-th one holding [k] on both sides. *)
Definition sample_stream : list record :=
  map (fun k => ([k], [k], ""%string)) (seq 1 100).

(** ** The remaining methods of [RxnDataset] *)

(** The object with [self.rxns] reassigned. *)
Definition set_rxns (ds : RxnDataset) (keep_rxns : list Rxn) : RxnDataset :=
  mkRxnDataset keep_rxns (vocab_reactants ds) (vocab_products ds)
               (reactants ds) (reagents ds) (products ds)
               (reactants_token_list ds) (products_token_list ds)
               (reactant_token_list ds) (product_token_list ds).

(** [remove_max_reactants] and [remove_max_products]: the reactions with
    at most so many reactant (product) molecules are kept, in order.  The
    bound is a Python integer. *)
Definition remove_max_reactants (max_reactants : Z) (ds : RxnDataset) :
  RxnDataset :=
  set_rxns ds
    (filter (fun rxn => (Z.of_nat (length (rxn_reactants rxn)) <=? max_reactants)%Z)
            (rxns ds)).

Definition remove_max_products (max_products : Z) (ds : RxnDataset) :
  RxnDataset :=
  set_rxns ds
    (filter (fun rxn => (Z.of_nat (length (rxn_products rxn)) <=? max_products)%Z)
            (rxns ds)).

(** [__len__] *)
Definition len (ds : RxnDataset) : nat := length (rxns ds).

(** ** Vocabulary of further statements *)

(** Token lists joined by the separator token ["."]. *)
Fixpoint dot_join (tss : list (list token)) : list token :=
  match tss with
  | [] => []
  | [ts] => ts
  | ts :: rest => ts ++ "."%string :: dot_join rest
  end.

(** The token lists of the molecules, when every one of them parses. *)
Fixpoint parse_all (parser_list : string -> option (list token))
  (mols : list string) : option (list (list token)) :=
  match mols with
  | [] => Some []
  | m :: rest =>
      match parser_list m, parse_all parser_list rest with
      | Some ts, Some tss => Some (ts :: tss)
      | _, _ => None
      end
  end.

(** The reactions that tokenize but hold a token that is not in the
    token list (or whose token list is not there). *)
Definition lookup_failures (parser_list : string -> option (list token))
  (ds : RxnDataset) : list Rxn :=
  filter (fun rxn => match rxn_tokens parser_list rxn with
                     | Some rp =>
                         match rxn_record ds rxn (fst rp) (snd rp) with
                         | Some _ => false
                         | None => true
                         end
                     | None => false
                     end) (rxns ds).

(** One of the four nested tests of the [cut:] statistics. *)
Definition within (a b : nat) (len : nat * nat) : bool :=
  (fst len <? a) && (snd len <? b).

(** The ids [ids] stand for the tokens [toks] in the token list an
    attribute holds: every id is the position of the first occurrence of
    its token. *)
Definition decodes (token_list : option (list token)) (ids : list nat)
  (toks : list token) : Prop :=
  Forall2 (fun id t =>
             exists l, token_list = Some l
                       /\ nth_error l id = Some t
                       /\ forall j, j < id -> nth_error l j <> Some t)
          ids toks.

(** The sample corpus with a reactant token list that lacks the
    separator ["."]. *)
Definition sample_dataset_short : RxnDataset :=
  mkRxnDataset sample_rxns [] [] None None None None None
    (Some ["_PAD"; "_GO"; "_EOS"; "C"; "O"; ">"; "N"]%string)
    (Some ["_PAD"; "_GO"; "_EOS"; "C"; "O"]%string).

(** [token_list] gives the reserved tokens the ids [PAD_ID], [GO_ID] and
    [EOS_ID], and every token of [counted] an id, which is 3 or more
    unless the token is spelled like a reserved one. *)
Definition assigns_ids (counted : list token)
  (token_list : option (list token)) : Prop :=
  exists l,
    token_list = Some l
    /\ index l _PAD = Some PAD_ID
    /\ index l _GO = Some GO_ID
    /\ index l _EOS = Some EOS_ID
    /\ forall t, In t counted ->
         exists n, index l t = Some n /\ n < length l
                   /\ (~ In t _START_VOCAB -> 3 <= n).

(** An entry with its count doubled. *)
Definition doubled (kn : token * nat) : token * nat := (fst kn, snd kn + snd kn).

End Dataset.

(* ################################################################# *)
(** * Part II: [rxntorch/models/reactivity_network.py] *)

Module Reactivity.

Local Open Scope list_scope.
Local Open Scope nat_scope.

(** ** Tensors *)

(** A score is a float; the model works with exact rationals, on which
    comparison is decidable, and reads them as reals where the loss takes
    logarithms.  A bond label is a float holding 1 (the bond changes), 0
    (it does not) or the sentinel -1 (no such pair).  A tensor of shape
    [batch, n, n, 1] flattened from dimension 1 is a list of rows. *)
Definition score := Q.
Definition label := Z.

(** Element-wise operations on two tensors of one shape. *)
Definition map2 {A B C : Type} (f : A -> B -> C) (a : list A) (b : list B) :
  list C :=
  map (fun ab => f (fst ab) (snd ab)) (combine a b).

(** ** [ReactivityNet.forward] *)

(** [torch.where(blabels == -1.0, pair_scores - 10000, pair_scores)] at
    one position. *)
Definition mask_score (l : label) (s : score) : score :=
  if Z.eqb l (-1) then (s - 10000)%Q else s.

Definition masked_row (blabels : list label) (pair_scores : list score) :
  list score :=
  map2 mask_score blabels pair_scores.

(** [torch.topk(row, k)]: the positions of the [k] largest entries, the
    largest first; [RuntimeError] when the row has fewer than [k]
    entries.  The positions are sorted by descending score with a stable
    insertion sort, so equal scores come out by ascending position
    (torch leaves the order among equal scores open). *)
Fixpoint insert_desc (x : nat * score) (l : list (nat * score)) :
  list (nat * score) :=
  match l with
  | [] => [x]
  | y :: l' =>
      if Qle_bool (snd y) (snd x) then x :: y :: l' else y :: insert_desc x l'
  end.

Definition sort_desc (l : list (nat * score)) : list (nat * score) :=
  fold_right insert_desc [] l.

Definition topk (k : nat) (row : list score) : option (list nat) :=
  if length row <? k then None
  else Some (firstn k (map fst (sort_desc (enumerate row)))).

(** A loop that stops at the first exception. *)
Fixpoint traverse {A B : Type} (f : A -> option B) (l : list A) :
  option (list B) :=
  match l with
  | [] => Some []
  | a :: l' =>
      match f a, traverse f l' with
      | Some b, Some bs => Some (b :: bs)
      | _, _ => None
      end
  end.

(** The last two lines of [forward], on the pair scores the three layers
    computed: mask, then top 20 of every row. *)
Definition select_top_k (pair_scores : list (list score))
  (blabels : list (list label)) : option (list (list nat)) :=
  traverse (topk 20) (map2 masked_row blabels pair_scores).

(** ** The loss *)

Local Open Scope R_scope.

(** [F.relu] on a label. *)
Definition relu (l : label) : label := Z.max 0 l.

Definition sigmoid (x : R) : R := / (1 + exp (- x)).

(** [F.binary_cross_entropy_with_logits(x, y, reduction='none')] at one
    position, as torch documents it:
    [-(y * log(sigmoid x) + (1 - y) * log(1 - sigmoid x))]. *)
Definition binary_cross_entropy_with_logits (x y : R) : R :=
  - (y * ln (sigmoid x) + (1 - y) * ln (1 - sigmoid x)).

(** [torch.ne(l, -1).float()] *)
Definition ne_mask (l : label) : R := if Z.eqb l (-1) then 0 else 1.

Definition Rsum (l : list R) : R := fold_right Rplus 0 l.

(** [torch.mean]: the sum over the number of elements; of no element it
    is [nan], here [None]. *)
Definition torch_mean (l : list R) : option R :=
  match l with
  | [] => None
  | _ => Some (Rsum l / INR (length l))
  end.

(** Lines 74 to 77 at one position: the loss against the clamped label,
    times the mask. *)
Definition masked_loss (s : score) (l : label) : R :=
  binary_cross_entropy_with_logits (Q2R s) (IZR (relu l)) * ne_mask l.

(** Lines 74 to 77: the mean is taken over the whole tensor. *)
Definition loss (pair_scores : list (list score))
  (bond_labels : list (list label)) : option R :=
  torch_mean (map2 masked_loss (concat pair_scores) (concat bond_labels)).

Local Close Scope R_scope.

(** ** Accuracy *)

(** Columns of a row that hold 1. *)
Definition ones (row : list label) : list nat :=
  map fst (filter (fun cl => Z.eqb (snd cl) 1) (enumerate row)).

(** [torch.stack(torch.where(flatten(bond_labels) == 1), dim=-1)]: the
    (row, column) pairs of the entries equal to 1, row by row. *)
Definition sp_labels (bond_labels : list (list label)) : list (nat * nat) :=
  flat_map (fun ir => map (pair (fst ir)) (ones (snd ir)))
           (enumerate bond_labels).

(** The double loop that fills [sp_top_k]: row [j * nk + k] is
    [(j, top_k[j, k])]. *)
Definition sp_top_k (top_k : list (list nat)) : list (nat * nat) :=
  flat_map (fun jr => map (pair (fst jr)) (snd jr)) (enumerate top_k).

(** [sp[torch.where(sp[:, 0] == i)[0], 1]] *)
Definition mol_select (sp : list (nat * nat)) (i : nat) : list nat :=
  map snd (filter (fun p => Nat.eqb (fst p) i) sp).

Definition mol_labels (bond_labels : list (list label)) (i : nat) : list nat :=
  mol_select (sp_labels bond_labels) i.

Definition mol_topk (top_k : list (list nat)) (i : nat) : list nat :=
  mol_select (sp_top_k top_k) i.

(** [(labels.unsqueeze(0) == topk.unsqueeze(1)).any(dim=0)]: for every
    label, whether some top-k entry equals it. *)
Definition hits (labels topk : list nat) : list bool :=
  map (fun c => existsb (Nat.eqb c) topk) labels.

(** [mol_hits.all().int()] *)
Definition all_correct (mol_hits : list bool) : nat :=
  if forallb (fun b => b) mol_hits then 1 else 0.

Definition all_correct_10 (bond_labels : list (list label))
  (top_k : list (list nat)) (i : nat) : nat :=
  all_correct (hits (mol_labels bond_labels i) (firstn 10 (mol_topk top_k i))).

Definition all_correct_20 (bond_labels : list (list label))
  (top_k : list (list nat)) (i : nat) : nat :=
  all_correct (hits (mol_labels bond_labels i) (mol_topk top_k i)).

(** [sum([... for i in range(batch_size)])], with [batch_size] the
    number of rows of [top_k]. *)
Definition batch_acc (f : nat -> nat) (top_k : list (list nat)) : nat :=
  fold_right Nat.add 0 (map f (seq 0 (length top_k))).

(** ** Vocabulary of the statements, and sample rows *)

(** The order [sort_desc] sorts by. *)
Definition score_ge (x y : nat * score) : Prop := (snd y <= snd x)%Q.



(** The positions other than [c] that score at least as high as [c]. *)
Definition outranking (scores : list score) (c : nat) : list nat :=
  filter (fun q => negb (Nat.eqb q c)
                   && Qle_bool (nth c scores 0%Q) (nth q scores 0%Q))
         (seq 0 (length scores)).

(** Fewer than [k] other positions score at least as high as [c]. *)
Definition strictly_in_top (k : nat) (scores : list score) (c : nat) : Prop :=
  c < length scores /\ length (outranking scores c) < k.

(** The pairs of example [i] whose label is 1. *)
Definition changed (bond_labels : list (list label)) (i c : nat) : Prop :=
  nth_error (nth i bond_labels []) c = Some 1%Z.

(** An example with 21 atom pairs: the first pair changes, the last one
    is padding; pair [c] scores [(21 - c) / 10]. *)
Definition sample_labels : list label :=
  (1 :: repeat 0 19 ++ [-1])%Z.

Definition sample_scores : list score :=
  map (fun c => Z.of_nat (21 - c) # 10) (seq 0 21).



(** The pairs of a score and a label that enter the loss. *)
Definition unmasked (sl : score * label) : bool := negb (Z.eqb (snd sl) (-1)).

(** The loss of one position against its clamped label. *)
Definition position_loss (sl : score * label) : R :=
  binary_cross_entropy_with_logits (Q2R (fst sl)) (IZR (relu (snd sl))).

(** The loss as the claim words it: the mean of the position losses over
    the positions that are not masked. *)
Definition loss_over_unmasked (pair_scores : list (list score))
  (bond_labels : list (list label)) : option R :=
  torch_mean
    (map position_loss
         (filter unmasked (combine (concat pair_scores) (concat bond_labels)))).

(** ** [ReactivityTrainer] *)

(** A float that may be [nan]: [None] is [nan]. *)
Definition float_add (a b : option R) : option R :=
  match a, b with
  | Some x, Some y => Some (x + y)%R
  | _, _ => None
  end.

Section Trainer.

(** The parts of torch and of the network the loop drives and whose code
    is not in this file: the parameter tensors, their gradients and
    Adam's per-parameter state as opaque values; the three layers of
    [ReactivityNet] as one function from parameters and feature tensors
    to pair scores; autograd, gradient clipping and Adam's update as
    functions on those values. *)
Variables params grads adam_state features : Type.
Variable reactivity_scoring : params -> features -> list (list score).
Variable backward : params -> features -> list (list label) -> grads.
Variable clip_grad_norm_ : Q -> grads -> grads.
Variable adam_step :
  list Q -> adam_state -> params -> grads -> params * adam_state.
Variable param_norm_of : params -> R.
Variable grad_norm_of : grads -> R.

(** One batch of the data loader: the feature tensors and the labels. *)
Record batch := mkBatch {
  batch_features : features;
  bond_labels : list (list label)
}.

(** [ReactivityNet.forward]: the pair scores and the top 20 positions of
    every example, or [None] when [torch.topk] raises. *)
Definition forward (p : params) (b : batch) :
  option (list (list score) * list (list nat)) :=
  let pair_scores := reactivity_scoring p (batch_features b) in
  match select_top_k pair_scores (bond_labels b) with
  | Some top_k => Some (pair_scores, top_k)
  | None => None
  end.

(** The trainer object: the model's parameters and gradients, the
    optimizer (Adam's state and the learning rate of every parameter
    group) and the configuration [__init__] stores. *)
Record Trainer := mkTrainer {
  model : params;
  model_grad : option grads;
  optimizer_state : adam_state;
  param_groups : list Q;
  lr : Q;
  grad_clip : option Q;
  log_freq : nat
}.

(** [ReactivityTrainer.__init__]: Adam is built with one parameter group
    at the configured learning rate. *)
Definition init (p : params) (s0 : adam_state) (lr0 : Q)
  (clip : option Q) (freq : nat) : Trainer :=
  mkTrainer p None s0 [lr0] lr0 clip freq.

(** The accumulators of a logging window. *)
Record window := mkWindow {
  avg_loss : option R;
  sum_acc_10 : nat;
  sum_acc_20 : nat;
  sum_gnorm : R
}.

Definition empty_window : window := mkWindow (Some 0%R) 0 0 0%R.

(** One progress record.  An accuracy is kept as the pair of the sum and
    of [log_freq * batch_size] it is divided by; the norms are there in
    training mode only. *)
Record log_record := mkLog {
  log_epoch : nat;
  log_iter : nat;
  log_iters : nat;
  log_avg_loss : option R;
  log_acc10 : nat * nat;
  log_acc20 : nat * nat;
  log_norms : option (R * R)
}.

Record loop_state := mkLoop {
  trainer : Trainer;
  win : window;
  logs : list log_record
}.

(** A pass of the loop body either falls through to the next batch or
    raises; an exception is not caught and leaves the object as it is at
    that point. *)
Inductive step_result :=
| Next (st : loop_state)
| Raise (st : loop_state).

(** Lines 81 to 89, [if train:].  Returns the trainer after
    [optimizer.step()] with the two norms. *)
Definition train_step (tr : Trainer) (b : batch) : Trainer * (R * R) :=
  let g := backward (model tr) (batch_features b) (bond_labels b) in
  let pnorm := param_norm_of (model tr) in
  let gnorm := grad_norm_of g in
  let g' := match grad_clip tr with
            | Some c => clip_grad_norm_ c g
            | None => g
            end in
  let (p', s') := adam_step (param_groups tr) (optimizer_state tr) (model tr) g' in
  (mkTrainer p' (Some g') s' (param_groups tr) (lr tr) (grad_clip tr)
             (log_freq tr),
   (pnorm, gnorm)).

(** Lines 142 to 144.  [(i+1) % 1 == 0] holds for every [i]; the block
    stands at the level of the loop body, outside [if train:]. *)
Definition set_lr (tr : Trainer) : Trainer :=
  mkTrainer (model tr) (model_grad tr) (optimizer_state tr)
            (map (fun _ => (lr tr * (9 # 10))%Q) (param_groups tr))
            (lr tr) (grad_clip tr) (log_freq tr).

(** The body of [for i, data in enumerate(data_loader)]. *)
Definition iterate_step (train : bool) (epoch iters : nat)
  (st : loop_state) (ib : nat * batch) : step_result :=
  let (i, b) := ib in
  let tr := trainer st in
  match forward (model tr) b with
  | None => Raise st
  | Some (pair_scores, top_k) =>
      let l := loss pair_scores (bond_labels b) in
      let avg := float_add (avg_loss (win st)) l in
      let '(tr1, norms, gsum) :=
        if train then
          let (tr', pg) := train_step tr b in
          (tr', Some pg, (sum_gnorm (win st) + snd pg)%R)
        else (tr, None, sum_gnorm (win st)) in
      let batch_size := length top_k in
      let acc10 :=
        sum_acc_10 (win st)
        + batch_acc (all_correct_10 (bond_labels b) top_k) top_k in
      let acc20 :=
        sum_acc_20 (win st)
        + batch_acc (all_correct_20 (bond_labels b) top_k) top_k in
      match log_freq tr with
      | 0 => Raise (mkLoop tr1 (mkWindow avg acc10 acc20 gsum) (logs st))
      | S _ =>
          let (w, lg) :=
            if Nat.eqb ((i + 1) mod log_freq tr) 0 then
              (empty_window,
               logs st
               ++ [mkLog epoch (i + 1) iters avg
                         (acc10, log_freq tr * batch_size)
                         (acc20, log_freq tr * batch_size)
                         (match norms with
                          | Some pg => Some (fst pg, gsum)
                          | None => None
                          end)])
            else (mkWindow avg acc10 acc20 gsum, logs st) in
          Next (mkLoop (set_lr tr1) w lg)
      end
  end.

Fixpoint iterate_loop (train : bool) (epoch iters : nat)
  (st : loop_state) (batches : list (nat * batch)) : step_result :=
  match batches with
  | [] => Next st
  | ib :: rest =>
      match iterate_step train epoch iters st ib with
      | Next st' => iterate_loop train epoch iters st' rest
      | Raise st' => Raise st'
      end
  end.

(** [ReactivityTrainer.iterate] *)
Definition iterate (tr : Trainer) (epoch : nat) (data_loader : list batch)
  (train : bool) : step_result :=
  iterate_loop train epoch (length data_loader)
               (mkLoop tr empty_window []) (enumerate data_loader).

(** [ReactivityTrainer.train] and [ReactivityTrainer.test] on the
    batches of the respective loader. *)
Definition train (tr : Trainer) (epoch : nat) (train_data : list batch) :
  step_result :=
  iterate tr epoch train_data true.

Definition test (tr : Trainer) (epoch : nat) (test_data : list batch) :
  step_result :=
  iterate tr epoch test_data false.

(** The trainer a call leaves behind, however it ends. *)
Definition after (r : step_result) : Trainer :=
  match r with
  | Next st => trainer st
  | Raise st => trainer st
  end.

End Trainer.

Arguments mkBatch {features}.
Arguments batch_features {features}.
Arguments bond_labels {features}.
Arguments forward {params features}.
Arguments mkTrainer {params grads adam_state}.
Arguments model {params grads adam_state}.
Arguments model_grad {params grads adam_state}.
Arguments optimizer_state {params grads adam_state}.
Arguments param_groups {params grads adam_state}.
Arguments lr {params grads adam_state}.
Arguments grad_clip {params grads adam_state}.
Arguments log_freq {params grads adam_state}.
Arguments init {params grads adam_state}.
Arguments mkLoop {params grads adam_state}.
Arguments trainer {params grads adam_state}.
Arguments win {params grads adam_state}.
Arguments logs {params grads adam_state}.
Arguments Next {params grads adam_state}.
Arguments Raise {params grads adam_state}.
Arguments train_step {params grads adam_state features}.
Arguments set_lr {params grads adam_state}.
Arguments iterate_step {params grads adam_state features}.
Arguments iterate_loop {params grads adam_state features}.
Arguments iterate {params grads adam_state features}.
Arguments train {params grads adam_state features}.
Arguments test {params grads adam_state features}.
Arguments after {params grads adam_state}.

(** The rate lines 142 to 144 write into every parameter group. *)
Definition decayed {params grads adam_state : Type}
  (tr : Trainer params grads adam_state) : list Q :=
  map (fun _ => (lr tr * (9 # 10))%Q) (param_groups tr).

(** What a call does not touch of the trainer. *)
Definition same_model {params grads adam_state : Type}
  (tr tr' : Trainer params grads adam_state) : Prop :=
  model tr' = model tr /\ model_grad tr' = model_grad tr
  /\ optimizer_state tr' = optimizer_state tr.

Definition same_config {params grads adam_state : Type}
  (tr tr' : Trainer params grads adam_state) : Prop :=
  lr tr' = lr tr /\ grad_clip tr' = grad_clip tr /\ log_freq tr' = log_freq tr.

(** ** A trainer to run *)

(** A stand-in for the network and for torch: the feature tensor of a
    batch is its table of pair scores, there is nothing to learn, and
    Adam's state counts the steps taken. *)
Definition sample_batch : batch (list (list score)) :=
  mkBatch [sample_scores] [sample_labels].

Definition sample_forward (_ : unit) (x : list (list score)) := x.
Definition sample_backward (_ : unit) (_ : list (list score))
  (_ : list (list label)) : unit := tt.
Definition sample_clip (_ : Q) (g : unit) : unit := g.
Definition sample_adam (_ : list Q) (steps : nat) (p g : unit) : unit * nat :=
  (p, S steps).
Definition sample_norm (_ : unit) : R := 0%R.

Definition sample_trainer : Trainer unit unit nat :=
  init tt 0 1%Q None 10.

Definition sample_train :=
  train sample_forward sample_backward sample_clip sample_adam
        sample_norm sample_norm.

Definition sample_test :=
  test sample_forward sample_backward sample_clip sample_adam
       sample_norm sample_norm.

(** ** Vocabulary of the further statements *)

(** The loop state a call of [iterate] ends in, however it ends. *)
Definition final {params grads adam_state : Type}
  (r : step_result params grads adam_state) : loop_state params grads adam_state :=
  match r with
  | Next st => st
  | Raise st => st
  end.

(** The iteration numbers [1 .. iters] at which a record is logged. *)
Definition logged_iters (log_freq iters : nat) : list nat :=
  filter (fun n => Nat.eqb (n mod log_freq) 0) (seq 1 iters).

(** A trainer with [log_freq=0]. *)
Definition sample_trainer_0 : Trainer unit unit nat :=
  init tt 0 1%Q None 0.

(** ** Padding masks *)

(** [n.unsqueeze(-1) > torch.arange(0, width)] for one count [n]: slot
    [k] is on when [k < n]. *)
Definition arange_mask (width : nat) (n : Z) : list bool :=
  map (fun k => (Z.of_nat k <? n)%Z) (seq 0 width).

(** Lines 64 to 65: ten neighbour slots for every atom of every
    example. *)
Definition mask_neis (n_bonds : list (list Z)) : list (list (list bool)) :=
  map (map (arange_mask 10)) n_bonds.

(** Lines 66 to 69: one slot per atom, up to the size of the largest
    example of the batch.  [max()] of an empty tensor raises, and so does
    [torch.arange(0, end)] with a negative [end]. *)
Definition mask_atoms (n_atoms : list Z) : option (list (list bool)) :=
  match n_atoms with
  | [] => None
  | n :: ns =>
      let max_n_atoms := fold_right Z.max n ns in
      if (max_n_atoms <? 0)%Z then None
      else Some (map (arange_mask (Z.to_nat max_n_atoms)) n_atoms)
  end.

(** The row of a count [n] in a mask of [width] slots: [n] slots on,
    the others off. *)
Definition prefix_mask (width : nat) (n : Z) : list bool :=
  repeat true (Nat.min (Z.to_nat n) width)
  ++ repeat false (width - Z.to_nat n).

(** [sample_scores] with another score at the one masked position. *)
Definition sample_scores_other : list score :=
  firstn 20 sample_scores ++ [1000%Q].

(** ** [ReactivityTrainer.save] *)

(** ["%d" % epoch]: the decimal digits of an integer, with a minus sign
    when it is negative. *)
Definition format_d (n : Z) : string :=
  DecimalString.NilZero.string_of_int (Z.to_int n).

(** [file_path + ".ep%d" % epoch], the path the model is written to and
    that [save] returns. *)
Definition output_path (file_path : string) (epoch : Z) : string :=
  String.append file_path (String.append ".ep" (format_d epoch)).

End Reactivity.

(* ################################################################# *)
(** * Part III: facts about lists *)

Section ListFacts.

Local Open Scope list_scope.
Local Open Scope nat_scope.

Lemma In_combine_seq {A : Type} (l : list A) : forall a i x,
  In (i, x) (combine (seq a (length l)) l)
  <-> a <= i /\ nth_error l (i - a) = Some x.
Proof.
  induction l as [|y l IH]; intros a i x; simpl.
  - split; [easy|]. intros [_ H]. now destruct (i - a).
  - rewrite IH. split.
    + intros [[= -> ->]|[Hle Hn]].
      * split; [lia|]. now rewrite Nat.sub_diag.
      * split; [lia|]. replace (i - a) with (S (i - S a)) by lia. exact Hn.
    + intros [Hle Hn]. destruct (Nat.eq_dec a i) as [->|Hne].
      * left. rewrite Nat.sub_diag in Hn. simpl in Hn. congruence.
      * right. split; [lia|].
        replace (i - a) with (S (i - S a)) in Hn by lia. exact Hn.
Qed.

Lemma In_enumerate {A : Type} (l : list A) i x :
  In (i, x) (enumerate l) <-> nth_error l i = Some x.
Proof.
  unfold enumerate. rewrite In_combine_seq, Nat.sub_0_r.
  split; [tauto|]. split; [lia|assumption].
Qed.

Lemma enumerate_keys {A : Type} (l : list A) :
  map fst (enumerate l) = seq 0 (length l).
Proof.
  unfold enumerate. generalize 0.
  induction l as [|a l IH]; intros n; simpl; [reflexivity|].
  now rewrite IH.
Qed.

Lemma combine_seq_keys {A : Type} (l : list A) a :
  map fst (combine (seq a (length l)) l) = seq a (length l).
Proof.
  revert a. induction l as [|y l IH]; intros a; simpl; [reflexivity|].
  now rewrite IH.
Qed.

Lemma sorted_app_le {A : Type} (R : A -> A -> Prop) (l1 l2 : list A) :
  StronglySorted R (l1 ++ l2) ->
  forall x y, In x l1 -> In y l2 -> R x y.
Proof.
  induction l1 as [|a l1 IH]; intros Hs x y Hx Hy; [easy|].
  simpl in Hs. inversion Hs as [|? ? Hs' Hall]; subst.
  destruct Hx as [->|Hx].
  - rewrite Forall_forall in Hall. apply Hall, in_or_app. now right.
  - now apply IH.
Qed.

End ListFacts.

(* ################################################################# *)
(** * Part IV: the dataset *)

Module DatasetTheory.

Import Dataset.
Local Open Scope list_scope.
Local Open Scope nat_scope.

(** ** Dictionaries *)

Lemma keys_dict_incr t d :
  keys (dict_incr t d) = if in_dec string_dec t (keys d) then keys d else keys d ++ [t].
Proof.
  induction d as [|[k n] d IH]; simpl.
  - reflexivity.
  - destruct (String.eqb_spec k t) as [->|Hne]; simpl.
    + destruct (string_dec t t); [reflexivity|congruence].
    + rewrite IH. destruct (string_dec k t); [congruence|].
      destruct (in_dec string_dec t (keys d)); reflexivity.
Qed.

Lemma dict_get_incr t d u :
  count (dict_incr t d) u = count d u + (if String.eqb t u then 1 else 0).
Proof.
  unfold count. induction d as [|[k n] d IH]; simpl.
  - destruct (String.eqb t u); reflexivity.
  - destruct (String.eqb_spec k t) as [->|Hne]; simpl.
    + destruct (String.eqb t u); lia.
    + destruct (String.eqb_spec k u) as [->|Hne'].
      * destruct (String.eqb_spec t u); [congruence|lia].
      * exact IH.
Qed.

Lemma NoDup_keys_incr t d : NoDup (keys d) -> NoDup (keys (dict_incr t d)).
Proof.
  intros H. rewrite keys_dict_incr.
  destruct (in_dec string_dec t (keys d)) as [|Hn]; [exact H|].
  apply NoDup_app; [exact H|repeat constructor; intros []|].
  intros x Hx [<-|[]]. contradiction.
Qed.

Lemma count_tokens_app d l1 l2 :
  count_tokens d (l1 ++ l2) = count_tokens (count_tokens d l1) l2.
Proof. apply fold_left_app. Qed.

Lemma count_count_tokens toks : forall d u,
  count (count_tokens d toks) u = count d u + count_occ string_dec toks u.
Proof.
  induction toks as [|t toks IH]; intros d u; simpl.
  - lia.
  - unfold count_tokens in *. simpl. rewrite IH, dict_get_incr.
    destruct (string_dec t u) as [Heq|Hne].
    + subst. rewrite String.eqb_refl. lia.
    + apply String.eqb_neq in Hne. rewrite Hne. lia.
Qed.

Lemma NoDup_keys_count_tokens toks : forall d,
  NoDup (keys d) -> NoDup (keys (count_tokens d toks)).
Proof.
  induction toks as [|t toks IH]; intros d H; simpl; [exact H|].
  apply IH, NoDup_keys_incr, H.
Qed.

(** Keys are only ever appended. *)
Lemma keys_count_tokens_extends toks : forall d,
  exists extra, keys (count_tokens d toks) = keys d ++ extra.
Proof.
  induction toks as [|t toks IH]; intros d; simpl.
  - exists []. now rewrite app_nil_r.
  - destruct (IH (dict_incr t d)) as [e He]. unfold count_tokens in *.
    rewrite He, keys_dict_incr.
    destruct (in_dec string_dec t (keys d)); [now exists e|].
    exists (t :: e). now rewrite <- app_assoc.
Qed.

Lemma In_keys_count_tokens toks : forall d u,
  In u (keys (count_tokens d toks)) <-> In u (keys d) \/ In u toks.
Proof.
  induction toks as [|t toks IH]; intros d u; simpl.
  - tauto.
  - unfold count_tokens in *. simpl. rewrite IH, keys_dict_incr.
    destruct (in_dec string_dec t (keys d)) as [Hin|Hn].
    + split; [tauto|]. intros [H|[<-|H]]; auto.
    + rewrite in_app_iff. simpl. tauto.
Qed.

Lemma dict_get_In d : forall k n,
  NoDup (keys d) -> In (k, n) d -> dict_get d k = Some n.
Proof.
  induction d as [|[k' n'] d IH]; intros k n Hnd Hin; simpl in *; [easy|].
  inversion Hnd as [|? ? Hni Hnd']; subst.
  destruct Hin as [[= -> ->]|Hin].
  - now rewrite String.eqb_refl.
  - destruct (String.eqb_spec k' k) as [->|Hne].
    + exfalso. apply Hni. change k with (fst (k, n)). now apply in_map.
    + now apply IH.
Qed.

(** Every entry of the dictionary built from [toks] holds the number of
    occurrences of its key. *)
Lemma count_tokens_entries toks k n :
  In (k, n) (count_tokens [] toks) -> n = count_occ string_dec toks k.
Proof.
  intros Hin.
  pose proof (count_count_tokens toks [] k) as Hc.
  unfold count in Hc at 1.
  rewrite (dict_get_In (count_tokens [] toks) k n) in Hc; [exact Hc| |exact Hin].
  apply NoDup_keys_count_tokens. constructor.
Qed.

(** ** The stable descending sort *)

Lemma precedes_cons {A : Type} (l : list A) z x y :
  precedes l x y -> precedes (z :: l) x y.
Proof.
  intros (l1 & l2 & l3 & ->). now exists (z :: l1), l2, l3.
Qed.

Lemma precedes_head {A : Type} (l : list A) x y :
  In y l -> precedes (x :: l) x y.
Proof.
  intros H. apply in_split in H as (l2 & l3 & ->). now exists [], l2, l3.
Qed.

Lemma precedes_inv {A : Type} (l : list A) z x y :
  precedes (z :: l) x y -> (z = x /\ In y l) \/ precedes l x y.
Proof.
  intros (l1 & l2 & l3 & H). destruct l1 as [|w l1]; simpl in H.
  - injection H as -> ->. left. split; [reflexivity|].
    apply in_or_app. right. now left.
  - injection H as -> ->. right. now exists l1, l2, l3.
Qed.

Lemma precedes_map {A B : Type} (f : A -> B) l x y :
  precedes l x y -> precedes (map f l) (f x) (f y).
Proof.
  intros (l1 & l2 & l3 & ->).
  exists (map f l1), (map f l2), (map f l3).
  now rewrite map_app; simpl; rewrite map_app.
Qed.

Lemma precedes_map_inv {A B : Type} (f : A -> B) l a b :
  precedes (map f l) a b ->
  exists x y, f x = a /\ f y = b /\ precedes l x y.
Proof.
  intros (k1 & k2 & k3 & H).
  apply map_eq_app in H as (l1 & r1 & -> & <- & H).
  apply map_eq_cons in H as (x & r2 & -> & <- & H).
  apply map_eq_app in H as (l2 & r3 & -> & <- & H).
  apply map_eq_cons in H as (y & l3 & -> & <- & <-).
  exists x, y. repeat split. now exists l1, l2, l3.
Qed.

Lemma insert_desc_perm x l : Permutation (insert_desc x l) (x :: l).
Proof.
  induction l as [|y l IH]; simpl; [reflexivity|].
  destruct (snd y <=? snd x); [reflexivity|].
  rewrite IH. apply perm_swap.
Qed.

Lemma sort_desc_perm d : Permutation (sort_desc d) d.
Proof.
  induction d as [|x d IH]; simpl; [reflexivity|].
  rewrite insert_desc_perm. now constructor.
Qed.

Lemma insert_desc_sorted x l :
  StronglySorted count_ge l -> StronglySorted count_ge (insert_desc x l).
Proof.
  induction l as [|y l IH]; intros H; simpl.
  - repeat constructor.
  - inversion H as [|? ? Hs Hall]; subst.
    destruct (Nat.leb_spec (snd y) (snd x)) as [Hle|Hgt].
    + constructor; [exact H|]. constructor; [exact Hle|].
      eapply Forall_impl; [|exact Hall]. unfold count_ge. intros; lia.
    + constructor; [now apply IH|].
      rewrite (Forall_forall). intros z Hz.
      apply (Permutation_in _ (insert_desc_perm x l)) in Hz as [<-|Hz].
      * unfold count_ge. lia.
      * rewrite Forall_forall in Hall. now apply Hall.
Qed.

Lemma sort_desc_sorted d : StronglySorted count_ge (sort_desc d).
Proof.
  induction d as [|x d IH]; simpl; [constructor|].
  now apply insert_desc_sorted.
Qed.

(** Insertion keeps the order of what is there, and puts the new entry
    before every entry that does not beat it. *)
Lemma insert_desc_keeps z l x y :
  precedes l x y -> precedes (insert_desc z l) x y.
Proof.
  induction l as [|w l IH]; intros H; simpl.
  - destruct H as (l1 & l2 & l3 & H). now destruct l1.
  - destruct (snd w <=? snd z); [now apply precedes_cons|].
    apply precedes_inv in H as [[-> Hy]|H].
    + apply precedes_head.
      apply (Permutation_in _ (Permutation_sym (insert_desc_perm z l))).
      now right.
    + now apply precedes_cons, IH.
Qed.

Lemma insert_desc_first z l y :
  In y l -> snd y <= snd z -> precedes (insert_desc z l) z y.
Proof.
  induction l as [|w l IH]; intros Hin Hle; simpl; [easy|].
  destruct (Nat.leb_spec (snd w) (snd z)) as [Hw|Hw].
  - now apply precedes_head.
  - destruct Hin as [->|Hin]; [lia|]. now apply precedes_cons, IH.
Qed.

(** Stability: an entry that stands before another one with a count no
    larger than its own still stands before it after sorting. *)
Lemma sort_desc_stable d x y :
  precedes d x y -> snd y <= snd x -> precedes (sort_desc d) x y.
Proof.
  induction d as [|z d IH]; intros H Hle; simpl.
  - destruct H as (l1 & l2 & l3 & H). now destruct l1.
  - apply precedes_inv in H as [[-> Hy]|H].
    + apply insert_desc_first; [|exact Hle].
      now apply (Permutation_in _ (Permutation_sym (sort_desc_perm d))).
    + now apply insert_desc_keeps, IH.
Qed.

(** ** The two loops over the corpus *)

Lemma error_update_fresh i s m :
  ~ In i (map fst m) -> error_update i s m = m ++ [(i, s)].
Proof.
  induction m as [|[k v] m IH]; intros H; simpl in *; [reflexivity|].
  destruct (Nat.eqb_spec k i) as [->|Hne]; [tauto|].
  rewrite IH; tauto.
Qed.

Section Loops.

Variable parser_list : string -> option (list token).

Lemma vocab_fold ds idxs : forall st,
  NoDup idxs ->
  (forall i, In i idxs -> ~ In i (map fst (vs_errors st))) ->
  fold_left (vocab_step parser_list ds) idxs st
  = mkVocabState
      (count_tokens (vs_reactants st) (fst (counted_on parser_list ds idxs)))
      (count_tokens (vs_products st) (snd (counted_on parser_list ds idxs)))
      (vs_errors st ++ vocab_failures_on parser_list ds idxs).
Proof.
  induction idxs as [|i idxs IH]; intros st Hnd Hfresh; simpl.
  - rewrite app_nil_r. now destruct st.
  - inversion Hnd as [|? ? Hni Hnd']; subst.
    unfold vocab_step at 2.
    destruct (vocab_tokens parser_list ds i) as [[rl pl]|] eqn:Hi.
    + rewrite IH; simpl; [|exact Hnd'|intros j Hj; apply Hfresh; now right].
      now rewrite !count_tokens_app.
    + rewrite IH; simpl; [|exact Hnd'|].
      * rewrite error_update_fresh by (apply Hfresh; now left).
        now rewrite <- app_assoc.
      * intros j Hj. rewrite error_update_fresh by (apply Hfresh; now left).
        rewrite map_app, in_app_iff. simpl.
        intros [H|[->|[]]]; [|contradiction].
        revert H. apply Hfresh. now right.
Qed.

Lemma vocab_loop_eq ds :
  vocab_loop parser_list ds
  = mkVocabState
      (count_tokens (vocab_reactants ds) (counted_reactants parser_list ds))
      (count_tokens (vocab_products ds) (counted_products parser_list ds))
      (vocab_failures parser_list ds).
Proof.
  unfold vocab_loop. rewrite vocab_fold; simpl; auto using seq_NoDup.
Qed.

End Loops.

(** ** The ranked token lists *)

Lemma sorted_by_count_keys d t :
  In t (sorted_by_count d) <-> In t (keys d).
Proof.
  unfold sorted_by_count, keys.
  split; apply Permutation_in, Permutation_map;
    [|apply Permutation_sym]; apply sort_desc_perm.
Qed.

Lemma sorted_by_count_NoDup d : NoDup (keys d) -> NoDup (sorted_by_count d).
Proof.
  apply Permutation_NoDup, Permutation_map, Permutation_sym, sort_desc_perm.
Qed.

Lemma sorted_keys (f : token -> nat) (l : list (token * nat)) :
  StronglySorted count_ge l ->
  (forall k n, In (k, n) l -> n = f k) ->
  StronglySorted (fun a b => f b <= f a) (map fst l).
Proof.
  induction 1 as [|[k n] l Hs IH Hall]; intros Hf; simpl; constructor.
  - apply IH. intros k' n' H'. apply Hf. now right.
  - rewrite Forall_forall in *. intros b Hb.
    apply in_map_iff in Hb as ([k' n'] & <- & Hin). simpl.
    specialize (Hall _ Hin). unfold count_ge in Hall. simpl in Hall.
    rewrite <- (Hf k n) by now left.
    rewrite <- (Hf k' n') by now right. exact Hall.
Qed.

Lemma ranking_of_count_tokens observed :
  ranking_of observed
    (Some (_START_VOCAB ++ sorted_by_count (count_tokens [] observed))).
Proof.
  set (d := count_tokens [] observed).
  assert (Hnd : NoDup (keys d)) by (apply NoDup_keys_count_tokens; constructor).
  assert (Hin : forall t, In t (sorted_by_count d) <-> In t observed).
  { intros t. rewrite sorted_by_count_keys. unfold d.
    rewrite In_keys_count_tokens. simpl. tauto. }
  exists (sorted_by_count d). repeat split.
  - simpl. do 3 f_equal. apply Permutation_length, NoDup_Permutation.
    + now apply sorted_by_count_NoDup.
    + apply NoDup_nodup.
    + intros t. now rewrite Hin, nodup_In.
  - now apply sorted_by_count_NoDup.
  - apply Hin.
  - apply Hin.
  - apply sorted_keys; [apply sort_desc_sorted|].
    intros k n H. apply count_tokens_entries.
    now apply (Permutation_in _ (sort_desc_perm d)).
Qed.

(** The keys of the dictionary stand in the order of first occurrence. *)
Lemma keys_first_seen observed a b :
  In b observed -> first_seen_before observed a b ->
  precedes (keys (count_tokens [] observed)) a b.
Proof.
  intros Hb (Hab & l1 & l2 & -> & Ha1 & Hb1).
  rewrite count_tokens_app. set (d1 := count_tokens [] l1).
  assert (Hk : forall u, In u (keys d1) -> In u l1).
  { intros u. unfold d1. rewrite In_keys_count_tokens. simpl. tauto. }
  change (count_tokens d1 (a :: l2)) with (count_tokens (dict_incr a d1) l2).
  destruct (keys_count_tokens_extends l2 (dict_incr a d1)) as [e He].
  assert (Hbe : In b e).
  { assert (H : In b (keys (count_tokens (dict_incr a d1) l2))).
    { rewrite In_keys_count_tokens. right.
      apply in_app_or in Hb as [Hb|[Hb|Hb]]; [contradiction|congruence|exact Hb]. }
    rewrite He, keys_dict_incr in H.
    destruct (in_dec string_dec a (keys d1)) as [Hin|_];
      [exfalso; auto|].
    rewrite !in_app_iff in H. simpl in H.
    destruct H as [[H|[H|[]]]|H]; [exfalso; auto|congruence|exact H]. }
  rewrite He, keys_dict_incr.
  destruct (in_dec string_dec a (keys d1)) as [Hin|_]; [exfalso; auto|].
  apply in_split in Hbe as (e1 & e2 & ->).
  exists (keys d1), e1, e2. now rewrite <- app_assoc.
Qed.

Lemma ranked_first_seen observed a b :
  In b observed ->
  count_occ string_dec observed b <= count_occ string_dec observed a ->
  first_seen_before observed a b ->
  precedes (sorted_by_count (count_tokens [] observed)) a b.
Proof.
  intros Hb Hle Hfs.
  apply keys_first_seen in Hfs; [|exact Hb].
  apply precedes_map_inv in Hfs as ([a' n] & [b' m] & Ha & Hb' & Hp).
  simpl in Ha, Hb'. subst a' b'.
  assert (Hn : n = count_occ string_dec observed a).
  { apply count_tokens_entries. destruct Hp as (l1 & l2 & l3 & ->).
    apply in_or_app. right. now left. }
  assert (Hm : m = count_occ string_dec observed b).
  { apply count_tokens_entries. destruct Hp as (l1 & l2 & l3 & ->).
    apply in_or_app. right. right. apply in_or_app. right. now left. }
  unfold sorted_by_count.
  apply (precedes_map fst _ (a, n) (b, m)).
  apply sort_desc_stable; [exact Hp|]. simpl. lia.
Qed.

Section TokenizeLoop.

Variable parser_list : string -> option (list token).

Lemma tokenize_step_eq ds st i rxn :
  ~ In i (map fst (ts_errors st)) ->
  let st' := tokenize_step parser_list ds st (i, rxn) in
  ts_training_file st' = ts_training_file st ++ emitted_on parser_list ds [(i, rxn)]
  /\ ts_errors st' = ts_errors st ++ tokenize_failures_on parser_list ds [(i, rxn)].
Proof.
  intros Hi. unfold emitted_on, tokenize_failures_on, tokenized. simpl.
  destruct (rxn_tokens parser_list rxn) as [[rl pl]|]; simpl.
  - destruct (rxn_record ds rxn rl pl); simpl;
      rewrite ?app_nil_r, ?error_update_fresh by exact Hi; auto.
  - rewrite ?app_nil_r, ?error_update_fresh by exact Hi; auto.
Qed.

Lemma tokenize_fold ds irs : forall st,
  NoDup (map fst irs) ->
  (forall i, In i (map fst irs) -> ~ In i (map fst (ts_errors st))) ->
  let st' := fold_left (tokenize_step parser_list ds) irs st in
  ts_training_file st' = ts_training_file st ++ emitted_on parser_list ds irs
  /\ ts_errors st' = ts_errors st ++ tokenize_failures_on parser_list ds irs.
Proof.
  induction irs as [|[i rxn] irs IH]; intros st Hnd Hfresh; cbv zeta.
  - simpl. now rewrite !app_nil_r.
  - cbn [fold_left]. simpl in Hnd.
    inversion Hnd as [|? ? Hni Hnd']; subst.
    assert (Hi : ~ In i (map fst (ts_errors st))) by (apply Hfresh; now left).
    destruct (tokenize_step_eq ds st i rxn Hi) as [Hf He].
    destruct (IH (tokenize_step parser_list ds st (i, rxn)) Hnd') as [-> ->].
    + intros j Hj. rewrite He, map_app, in_app_iff.
      intros [H|H]; [revert H; apply Hfresh; now right|].
      unfold tokenize_failures_on in H. simpl in H.
      destruct (tokenized parser_list ds rxn); simpl in H; [easy|].
      destruct H as [->|[]]. contradiction.
    + rewrite Hf, He, <- !app_assoc.
      change ((i, rxn) :: irs) with ([(i, rxn)] ++ irs).
      unfold emitted_on, tokenize_failures_on.
      now rewrite !flat_map_app.
Qed.

Lemma tokenize_loop_eq ds :
  ts_training_file (tokenize_loop parser_list ds) = emitted parser_list ds
  /\ ts_errors (tokenize_loop parser_list ds) = tokenize_failures parser_list ds.
Proof.
  unfold tokenize_loop.
  apply (tokenize_fold ds (enumerate (rxns ds)) (mkTokenizeState [] [] [])).
  - rewrite enumerate_keys. apply seq_NoDup.
  - simpl. auto.
Qed.

End TokenizeLoop.

(** ** The shards *)

Lemma split_loop_eq data_file : forall i sh,
  split_loop i data_file sh
  = mkShards
      (train_file sh ++ at_positions (fun j => negb (hundredth j)) i data_file)
      (dev_file sh ++ at_positions hundredth i data_file)
      (dev_count sh + length (at_positions hundredth i data_file)).
Proof.
  induction data_file as [|[[r p] s] l IH]; intros i sh.
  - simpl. rewrite !app_nil_r, Nat.add_0_r. now destruct sh.
  - cbn [split_loop]. change (Nat.eqb (i mod 100) 0) with (hundredth i).
    rewrite IH. unfold at_positions, numbered.
    cbn [length seq combine filter fst snd].
    destruct (hundredth i);
      cbn [negb map length train_file dev_file dev_count strip fst snd];
      rewrite <- ?app_assoc; cbn [app]; f_equal; lia.
Qed.

Lemma at_positions_perm p start data_file :
  Permutation (at_positions (fun j => negb (p j)) start data_file
               ++ at_positions p start data_file)
              (map strip data_file).
Proof.
  unfold at_positions, numbered. revert start.
  induction data_file as [|r l IH]; intros start; simpl; [constructor|].
  destruct (p start); simpl.
  - apply Permutation_sym, Permutation_cons_app, Permutation_sym, IH.
  - constructor. apply IH.
Qed.

Lemma at_positions_length p start data_file :
  length (at_positions p start data_file)
  = length (filter p (seq start (length data_file))).
Proof.
  unfold at_positions, numbered. rewrite length_map. revert start.
  induction data_file as [|r l IH]; intros start; simpl; [reflexivity|].
  destruct (p start); simpl; now rewrite IH.
Qed.

Lemma hundredth_count n :
  length (filter hundredth (seq 1 n)) = n / 100.
Proof.
  induction n as [|n IH]; [reflexivity|].
  rewrite seq_S, filter_app, length_app, IH. cbn [filter Nat.add].
  unfold hundredth.
  pose proof (Nat.div_mod_eq (S n) 100) as H1.
  pose proof (Nat.div_mod_eq n 100) as H2.
  pose proof (Nat.mod_upper_bound (S n) 100) as H3.
  pose proof (Nat.mod_upper_bound n 100) as H4.
  destruct (Nat.eqb_spec (S n mod 100) 0); cbn [length]; lia.
Qed.

(** ** The sample corpus, run *)

Example sample_create_vocab :
  create_vocab_writes (create_vocab sample_parser sample_dataset)
  = ([("C", 3); ("."%string, 1); ("O", 2); (">", 2); ("N", 2)]%string,
     [("C", 3); ("O", 2)]%string,
     Some ["_PAD"; "_GO"; "_EOS"; "C"; "O"; ">"; "N"; "."]%string,
     Some ["_PAD"; "_GO"; "_EOS"; "C"; "O"]%string).
Proof. reflexivity. Qed.

(** The dictionaries are attributes of the object: a second call on the
    same object counts on top of the first, and ranks the same. *)
Example create_vocab_accumulates :
  create_vocab_writes
    (create_vocab sample_parser (create_vocab sample_parser sample_dataset))
  = ([("C", 6); ("."%string, 2); ("O", 4); (">", 4); ("N", 4)]%string,
     [("C", 6); ("O", 4)]%string,
     Some ["_PAD"; "_GO"; "_EOS"; "C"; "O"; ">"; "N"; "."]%string,
     Some ["_PAD"; "_GO"; "_EOS"; "C"; "O"]%string).
Proof. reflexivity. Qed.

Example sample_tokenize_data :
  tokenize_data sample_parser sample_dataset
  = Returned
      [([3; 3; 7; 4; 5; 6], [3; 3; 4], "CC.O>N>CCO"%string);
       ([3; 4; 5; 6], [4; 3], "CO>N>OC"%string)]
      (mkShards [([3; 3; 7; 4; 5; 6], [3; 3; 4]); ([3; 4; 5; 6], [4; 3])] [] 0)
      [PrintMax 6 3; PrintTotal 2; PrintCut [2; 2; 2; 2; 0]; PrintSplit 0 2%Z].
Proof. reflexivity. Qed.

Lemma In_vocab_failures parser_list ds i s :
  In (i, s) (vocab_failures parser_list ds)
  <-> vocab_tokens parser_list ds i = None
      /\ nth_error (rxn_smiles ds) i = Some s.
Proof.
  unfold vocab_failures, vocab_failures_on. rewrite in_flat_map. split.
  - intros (j & Hj & H). apply in_seq in Hj.
    destruct (vocab_tokens parser_list ds j) eqn:Hv; [easy|].
    destruct H as [[= -> <-]|[]]. split; [exact Hv|].
    apply nth_error_nth'. unfold rxn_smiles. rewrite length_map. lia.
  - intros [Hv Hn]. exists i. split.
    + apply in_seq. split; [lia|]. simpl.
      rewrite <- (length_map smile). apply nth_error_Some.
      fold (rxn_smiles ds). congruence.
    + rewrite Hv. left. f_equal. now apply nth_error_nth.
Qed.

Lemma In_tokenize_failures parser_list ds i s :
  In (i, s) (tokenize_failures parser_list ds)
  <-> exists rxn, nth_error (rxns ds) i = Some rxn
                  /\ tokenized parser_list ds rxn = None
                  /\ smile rxn = s.
Proof.
  unfold tokenize_failures, tokenize_failures_on. rewrite in_flat_map. split.
  - intros ([j rxn] & Hj & H). simpl in H.
    destruct (tokenized parser_list ds rxn) eqn:Ht; [easy|].
    destruct H as [[= -> <-]|[]]. exists rxn.
    now apply In_enumerate in Hj.
  - intros (rxn & Hn & Ht & <-). exists (i, rxn). split.
    + now apply In_enumerate.
    + simpl. rewrite Ht. now left.
Qed.

(** ** The claims about the dataset *)

(** C7. After [create_vocab] on a dataset whose vocabularies are empty
    (as [__init__] leaves them), each of the two token lists is the
    reserved tokens [_PAD], [_GO], [_EOS] in that order followed by every
    token counted on that side exactly once, by descending frequency; its
    length is 3 plus the number of distinct tokens counted on that side. *)
Theorem create_vocab_token_lists
  (parser_list : string -> option (list token)) (ds : RxnDataset) :
  vocab_reactants ds = [] -> vocab_products ds = [] ->
  ranking_of (counted_reactants parser_list ds)
             (reactants_token_list (create_vocab parser_list ds))
  /\ ranking_of (counted_products parser_list ds)
                (products_token_list (create_vocab parser_list ds)).
Proof.
  intros Hr Hp. unfold create_vocab. rewrite vocab_loop_eq, Hr, Hp. simpl.
  split; apply ranking_of_count_tokens.
Qed.

Lemma create_vocab_token_lists_witness :
  ranking_of (counted_reactants sample_parser sample_dataset)
             (reactants_token_list (create_vocab sample_parser sample_dataset))
  /\ ranking_of (counted_products sample_parser sample_dataset)
                (products_token_list (create_vocab sample_parser sample_dataset)).
Proof.
  apply (create_vocab_token_lists sample_parser sample_dataset); reflexivity.
Defined.

(** C8. Two runs of [create_vocab] over the same corpus, each starting
    from empty vocabularies, give the same two frequency dictionaries and
    the same two token lists; and in each token list tokens of equal
    frequency stand in the order in which the corpus shows them first. *)
Theorem create_vocab_deterministic
  (parser_list : string -> option (list token)) (ds1 ds2 : RxnDataset) :
  vocab_reactants ds1 = [] -> vocab_products ds1 = [] ->
  vocab_reactants ds2 = [] -> vocab_products ds2 = [] ->
  same_corpus ds1 ds2 ->
  create_vocab_writes (create_vocab parser_list ds1)
  = create_vocab_writes (create_vocab parser_list ds2)
  /\ ties_by_first_seen (counted_reactants parser_list ds1)
                        (reactants_token_list (create_vocab parser_list ds1))
  /\ ties_by_first_seen (counted_products parser_list ds1)
                        (products_token_list (create_vocab parser_list ds1)).
Proof.
  intros Hr1 Hp1 Hr2 Hp2 (Hx & Hr & Hg & Hp).
  assert (Hc : counted_on parser_list ds1 (seq 0 (length (rxns ds1)))
               = counted_on parser_list ds2 (seq 0 (length (rxns ds2)))).
  { rewrite Hx. unfold counted_on, vocab_tokens. now rewrite Hr, Hg, Hp. }
  split; [|split].
  - unfold create_vocab_writes, create_vocab. rewrite !vocab_loop_eq. simpl.
    unfold counted_reactants, counted_products.
    now rewrite Hr1, Hp1, Hr2, Hp2, Hc.
  - unfold create_vocab. rewrite vocab_loop_eq, Hr1. simpl.
    eexists. split; [reflexivity|]. intros a b Hb Heq Hfs.
    apply ranked_first_seen; [exact Hb|lia|exact Hfs].
  - unfold create_vocab. rewrite vocab_loop_eq, Hp1. simpl.
    eexists. split; [reflexivity|]. intros a b Hb Heq Hfs.
    apply ranked_first_seen; [exact Hb|lia|exact Hfs].
Qed.

Lemma create_vocab_deterministic_witness :
  create_vocab_writes (create_vocab sample_parser sample_dataset)
  = create_vocab_writes (create_vocab sample_parser sample_dataset_bare)
  /\ ties_by_first_seen
       (counted_reactants sample_parser sample_dataset)
       (reactants_token_list (create_vocab sample_parser sample_dataset))
  /\ ties_by_first_seen
       (counted_products sample_parser sample_dataset)
       (products_token_list (create_vocab sample_parser sample_dataset)).
Proof.
  apply (create_vocab_deterministic sample_parser
           sample_dataset sample_dataset_bare); try reflexivity.
  repeat split.
Defined.

(** C6, as the code has it.  In both methods a reaction whose [try] body
    raises is entered in the method's [error_rsmi] under its index with
    its reaction string, and only such reactions are; the loop goes on
    over the whole corpus: the frequency dictionaries of [create_vocab]
    gain exactly the tokens of the reactions that did not raise, and
    [tokenize_data] writes exactly their records, in corpus order. *)
Theorem failures_recorded_and_skipped
  (parser_list : string -> option (list token)) (ds : RxnDataset) :
  (forall i s,
      In (i, s) (vs_errors (vocab_loop parser_list ds))
      <-> vocab_tokens parser_list ds i = None
          /\ nth_error (rxn_smiles ds) i = Some s)
  /\ vocab_reactants (create_vocab parser_list ds)
     = count_tokens (vocab_reactants ds) (counted_reactants parser_list ds)
  /\ vocab_products (create_vocab parser_list ds)
     = count_tokens (vocab_products ds) (counted_products parser_list ds)
  /\ (forall i s,
        In (i, s) (ts_errors (tokenize_loop parser_list ds))
        <-> exists rxn, nth_error (rxns ds) i = Some rxn
                        /\ tokenized parser_list ds rxn = None
                        /\ smile rxn = s)
  /\ ts_training_file (tokenize_loop parser_list ds)
     = flat_map (fun rxn => match tokenized parser_list ds rxn with
                            | Some r => [r]
                            | None => []
                            end) (rxns ds).
Proof.
  destruct (tokenize_loop_eq parser_list ds) as [Hf He].
  unfold create_vocab. rewrite vocab_loop_eq, He, Hf. simpl.
  split; [intros i s; apply In_vocab_failures|].
  split; [reflexivity|]. split; [reflexivity|].
  split; [intros i s; apply In_tokenize_failures|].
  unfold emitted, emitted_on, enumerate. generalize 0.
  induction (rxns ds) as [|rxn l IH]; intros a; simpl; [reflexivity|].
  now rewrite IH.
Qed.

(** C6, as the claim has it: the number of failures is not reported.
    The sample corpus, in which one reaction raises, and the corpus
    without that reaction leave the caller with the same attributes, the
    same files and the same output. *)
Lemma failures_not_reported :
  ~ reported (fun ds => create_vocab_writes (create_vocab sample_parser ds))
             (fun ds => length (vs_errors (vocab_loop sample_parser ds)))
  /\ ~ reported (tokenize_data sample_parser)
               (fun ds => length (ts_errors (tokenize_loop sample_parser ds))).
Proof.
  split; intros [report H];
    pose proof (H sample_dataset) as H1;
    pose proof (H sample_dataset_clean) as H2;
    vm_compute in H1, H2; congruence.
Qed.

(** C9. [tokenize_data] sends the record at 1-based position [i] of the
    stream to the held-out shard exactly when [i] is a multiple of 100
    and to the training shard otherwise, in stream order; every record
    lands in exactly one shard; the held-out shard of [n] records has
    [n / 100] records, and of 100 records it has 1, the training shard
    99. *)
Theorem split_every_100th (data_file : list record) :
  dev_file (split_shards data_file) = at_positions hundredth 1 data_file
  /\ train_file (split_shards data_file)
     = at_positions (fun i => negb (hundredth i)) 1 data_file
  /\ Permutation (train_file (split_shards data_file)
                  ++ dev_file (split_shards data_file))
                 (map strip data_file)
  /\ length (dev_file (split_shards data_file)) = length data_file / 100
  /\ length (train_file (split_shards data_file))
     = length data_file - length data_file / 100
  /\ dev_count (split_shards data_file)
     = length (dev_file (split_shards data_file))
  /\ (length data_file = 100 ->
      length (dev_file (split_shards data_file)) = 1
      /\ length (train_file (split_shards data_file)) = 99).
Proof.
  unfold split_shards. rewrite split_loop_eq. cbn [train_file dev_file dev_count app Nat.add].
  pose proof (at_positions_perm hundredth 1 data_file) as Hperm.
  assert (Hdev : length (at_positions hundredth 1 data_file)
                 = length data_file / 100)
    by now rewrite at_positions_length, hundredth_count.
  assert (Htrain : length (at_positions (fun i => negb (hundredth i)) 1 data_file)
                   = length data_file - length data_file / 100).
  { apply Permutation_length in Hperm.
    rewrite length_app, length_map, Hdev in Hperm. lia. }
  repeat split; auto.
  - now rewrite Hdev, H.
  - now rewrite Htrain, H.
Qed.

Lemma split_every_100th_witness :
  length (dev_file (split_shards sample_stream)) = 1
  /\ length (train_file (split_shards sample_stream)) = 99.
Proof.
  apply (split_every_100th sample_stream). reflexivity.
Defined.

Example sample_stream_dev :
  dev_file (split_shards sample_stream) = [([100], [100])].
Proof. reflexivity. Qed.


(** ** What a reaction tokenizes to *)

Lemma parse_mols_fold parser_list mols : forall acc,
  fold_left
    (fun acc m =>
       match acc with
       | Some lst =>
           match parser_list m with
           | Some ts => Some (lst ++ ts ++ ["."%string])
           | None => None
           end
       | None => None
       end) mols acc
  = match acc, parse_all parser_list mols with
    | Some lst, Some tss =>
        Some (lst ++ flat_map (fun ts => ts ++ ["."%string]) tss)
    | _, _ => None
    end.
Proof.
  induction mols as [|m mols IH]; intros acc; simpl.
  - destruct acc; [now rewrite app_nil_r|reflexivity].
  - rewrite IH. destruct acc as [lst|]; [|reflexivity].
    destruct (parser_list m) as [ts|]; [|reflexivity].
    destruct (parse_all parser_list mols) as [tss|]; [|reflexivity].
    simpl. now rewrite <- !app_assoc.
Qed.

Lemma parse_mols_eq parser_list mols :
  parse_mols parser_list mols
  = option_map (flat_map (fun ts => ts ++ ["."%string]))
               (parse_all parser_list mols).
Proof.
  unfold parse_mols. rewrite parse_mols_fold.
  now destruct (parse_all parser_list mols).
Qed.

Lemma dotted_nil (tss : list (list token)) :
  flat_map (fun ts => ts ++ ["."%string]) tss = [] -> tss = [].
Proof.
  destruct tss as [|ts tss]; [reflexivity|]. simpl.
  destruct ts; discriminate.
Qed.

Lemma removelast_dotted (tss : list (list token)) :
  removelast (flat_map (fun ts => ts ++ ["."%string]) tss) = dot_join tss.
Proof.
  induction tss as [|ts tss IH]; [reflexivity|].
  cbn [flat_map]. destruct tss as [|ts' tss].
  - cbn [flat_map dot_join]. rewrite app_nil_r. apply removelast_last.
  - rewrite removelast_app.
    + rewrite IH. cbn [dot_join]. now rewrite <- app_assoc.
    + intros H. apply dotted_nil in H. discriminate.
Qed.

Lemma pop_nonempty {A : Type} (l : list A) :
  l <> [] -> pop l = Some (removelast l).
Proof. destruct l; [congruence|reflexivity]. Qed.

Lemma pop_dotted (tss : list (list token)) :
  pop (flat_map (fun ts => ts ++ ["."%string]) tss)
  = match tss with
    | [] => None
    | _ => Some (dot_join tss)
    end.
Proof.
  destruct tss as [|ts tss]; [reflexivity|].
  rewrite pop_nonempty, removelast_dotted; [reflexivity|].
  intros H. apply dotted_nil in H. discriminate.
Qed.

Lemma split_dot_nonempty s : split_dot s <> [].
Proof.
  destruct s as [|c r]; simpl; [discriminate|].
  destruct (Ascii.eqb c "."%char); [discriminate|].
  destruct (split_dot r); discriminate.
Qed.

Lemma parse_all_length parser_list mols tss :
  parse_all parser_list mols = Some tss -> length tss = length mols.
Proof.
  revert tss. induction mols as [|m mols IH]; intros tss H; simpl in H.
  - now injection H as <-.
  - destruct (parser_list m); [|discriminate].
    destruct (parse_all parser_list mols) as [tss'|]; [|discriminate].
    injection H as <-. simpl. now rewrite (IH tss').
Qed.


Lemma split_dot_concat s : String.concat "." (split_dot s) = s.
Proof.
  induction s as [|c r IH]; [reflexivity|]. simpl.
  destruct (split_dot r) as [|w ws] eqn:E;
    [now apply split_dot_nonempty in E|].
  destruct (Ascii.eqb_spec c "."%char) as [->|Hc].
  - change (String.concat "." (""%string :: w :: ws))
      with (String "."%char (String.concat "." (w :: ws))).
    now rewrite IH.
  - destruct ws as [|w' ws]; simpl in *; now rewrite IH.
Qed.

(** X2. [create_vocab] cuts each of the three strings of reaction [i] at
    its dots (the pieces joined by dots give the string back), parses
    every piece, the empty ones too, and counts the reactant pieces
    joined by ["."], then [">"], then the reagent pieces joined by ["."],
    and on the product side the product pieces joined by ["."].  It
    skips the reaction exactly when one of the three strings is not
    there or a piece does not parse; none of the three [pop()]s can
    raise. *)
Theorem vocab_tokens_form
  (parser_list : string -> option (list token)) (ds : RxnDataset) (i : nat) :
  vocab_tokens parser_list ds i
  = match attr_nth (reactants ds) i, attr_nth (reagents ds) i,
          attr_nth (products ds) i with
    | Some r, Some g, Some p =>
        match parse_all parser_list (split_dot r),
              parse_all parser_list (split_dot g),
              parse_all parser_list (split_dot p) with
        | Some rs, Some gs, Some ps =>
            Some (dot_join rs ++ ">"%string :: dot_join gs, dot_join ps)
        | _, _, _ => None
        end
    | _, _, _ => None
    end
  /\ forall s, String.concat "." (split_dot s) = s.
Proof.
  split; [|apply split_dot_concat].
  unfold vocab_tokens, join_lists.
  destruct (attr_nth (reactants ds) i) as [r|]; [|reflexivity].
  destruct (attr_nth (reagents ds) i) as [g|]; [|reflexivity].
  destruct (attr_nth (products ds) i) as [p|]; [|reflexivity].
  rewrite !parse_mols_eq.
  destruct (parse_all parser_list (split_dot r)) as [rs|] eqn:Er;
    [|reflexivity].
  destruct (parse_all parser_list (split_dot g)) as [gs|] eqn:Eg;
    [|reflexivity].
  destruct (parse_all parser_list (split_dot p)) as [ps|] eqn:Ep;
    [|reflexivity].
  cbn [option_map]. rewrite !pop_dotted.
  apply parse_all_length in Er, Eg, Ep.
  pose proof (split_dot_nonempty r). pose proof (split_dot_nonempty g).
  pose proof (split_dot_nonempty p).
  destruct rs; [now destruct (split_dot r)|].
  destruct gs; [now destruct (split_dot g)|].
  destruct ps; [now destruct (split_dot p)|].
  reflexivity.
Qed.

(** ** [tokenize_data] after its first loop *)

(** The lengths [tokenize_data] appends for a reaction. *)
Lemma tokenize_token_len_fold parser_list ds irs : forall st,
  ts_token_len (fold_left (tokenize_step parser_list ds) irs st)
  = ts_token_len st
    ++ flat_map (fun ir => match rxn_tokens parser_list (snd ir) with
                           | Some rp => [(length (fst rp), length (snd rp))]
                           | None => []
                           end) irs.
Proof.
  induction irs as [|[i rxn] irs IH]; intros st.
  - simpl. now rewrite app_nil_r.
  - cbn [fold_left flat_map snd]. rewrite IH. unfold tokenize_step.
    destruct (rxn_tokens parser_list rxn) as [[rl pl]|]; simpl.
    + destruct (rxn_record ds rxn rl pl); simpl; now rewrite <- app_assoc.
    + reflexivity.
Qed.

Lemma tokenize_token_len parser_list ds :
  ts_token_len (tokenize_loop parser_list ds)
  = flat_map (fun rxn => match rxn_tokens parser_list rxn with
                         | Some rp => [(length (fst rp), length (snd rp))]
                         | None => []
                         end) (rxns ds).
Proof.
  unfold tokenize_loop. rewrite tokenize_token_len_fold. simpl.
  unfold enumerate. generalize 0.
  induction (rxns ds) as [|rxn l IH]; intros a; simpl; [reflexivity|].
  now rewrite IH.
Qed.

Lemma emitted_flat parser_list ds :
  ts_training_file (tokenize_loop parser_list ds)
  = flat_map (fun rxn => match tokenized parser_list ds rxn with
                         | Some r => [r]
                         | None => []
                         end) (rxns ds).
Proof.
  destruct (tokenize_loop_eq parser_list ds) as [-> _].
  unfold emitted, emitted_on, enumerate. generalize 0.
  induction (rxns ds) as [|rxn l IH]; intros a; simpl; [reflexivity|].
  now rewrite IH.
Qed.

Lemma token_len_nil parser_list (l : list Rxn) :
  flat_map (fun rxn => match rxn_tokens parser_list rxn with
                       | Some rp => [(length (fst rp), length (snd rp))]
                       | None => []
                       end) l = []
  <-> Forall (fun rxn => rxn_tokens parser_list rxn = None) l.
Proof.
  induction l as [|rxn l IH]; simpl.
  - split; [constructor|reflexivity].
  - split.
    + intros H. destruct (rxn_tokens parser_list rxn) eqn:E; [discriminate|].
      constructor; [exact E|now apply IH].
    + intros H. inversion H as [|? ? Hr Hl]; subst. rewrite Hr. now apply IH.
Qed.

Lemma emitted_nil parser_list ds (l : list Rxn) :
  Forall (fun rxn => rxn_tokens parser_list rxn = None) l ->
  flat_map (fun rxn => match tokenized parser_list ds rxn with
                       | Some r => [r]
                       | None => []
                       end) l = [].
Proof.
  induction 1 as [|rxn l Hr _ IH]; [reflexivity|].
  simpl. unfold tokenized at 1. now rewrite Hr.
Qed.

(** X3. [tokenize_data] raises (the [IndexError] of [trans[0]]) exactly
    when no reaction of the corpus gets through the parser, the empty
    corpus included; it has then written an empty
    [training_data.pkl.gz] and no shard. *)
Theorem tokenize_data_raises
  (parser_list : string -> option (list token)) (ds : RxnDataset) :
  (Forall (fun rxn => rxn_tokens parser_list rxn = None) (rxns ds)
   <-> tokenize_data parser_list ds = Raised [])
  /\ (forall training_data,
        tokenize_data parser_list ds = Raised training_data ->
        training_data = []).
Proof.
  unfold tokenize_data.
  pose proof (tokenize_token_len parser_list ds) as Hlen.
  pose proof (emitted_flat parser_list ds) as Hem.
  pose proof (token_len_nil parser_list (rxns ds)) as Hnil.
  rewrite <- Hlen in Hnil.
  destruct (ts_token_len (tokenize_loop parser_list ds)) eqn:E.
  - assert (Hall : Forall (fun rxn => rxn_tokens parser_list rxn = None)
                          (rxns ds)) by now apply Hnil.
    rewrite Hem, (emitted_nil parser_list ds _ Hall).
    split; [split; auto|]. now intros tf [= <-].
  - split; [split|]; try discriminate.
    intros H. apply Hnil in H. discriminate.
Qed.

Lemma token_len_count parser_list ds (l : list Rxn) :
  length (flat_map (fun rxn => match rxn_tokens parser_list rxn with
                               | Some rp => [(length (fst rp), length (snd rp))]
                               | None => []
                               end) l)
  = length (flat_map (fun rxn => match tokenized parser_list ds rxn with
                                 | Some r => [r]
                                 | None => []
                                 end) l)
    + length (filter (fun rxn => match rxn_tokens parser_list rxn with
                                 | Some rp =>
                                     match rxn_record ds rxn (fst rp) (snd rp) with
                                     | Some _ => false
                                     | None => true
                                     end
                                 | None => false
                                 end) l).
Proof.
  induction l as [|rxn l IH]; [reflexivity|].
  cbn [flat_map filter]. rewrite !length_app, IH.
  replace (tokenized parser_list ds rxn)
    with (match rxn_tokens parser_list rxn with
          | Some rp => rxn_record ds rxn (fst rp) (snd rp)
          | None => None
          end) by reflexivity.
  destruct (rxn_tokens parser_list rxn) as [rp|]; [|simpl; lia].
  destruct (rxn_record ds rxn (fst rp) (snd rp)); simpl; lia.
Qed.

Lemma split_shards_lengths data_file :
  dev_count (split_shards data_file) = length (dev_file (split_shards data_file))
  /\ length (train_file (split_shards data_file))
     + length (dev_file (split_shards data_file)) = length data_file.
Proof.
  unfold split_shards. rewrite split_loop_eq.
  cbn [train_file dev_file dev_count app Nat.add]. split; [reflexivity|].
  rewrite <- length_app, (Permutation_length (at_positions_perm hundredth 1 data_file)).
  apply length_map.
Qed.

(** X4. When [tokenize_data] returns, the number it prints after
    [total:] counts the records written plus the reactions that were
    tokenized but not written because a token was not in the token list;
    the last line prints the size of the held-out shard and then the size
    of the training shard plus that same number of unwritten reactions.
    The two shards together hold as many records as were written. *)
Theorem tokenize_data_prints
  (parser_list : string -> option (list token)) (ds : RxnDataset)
  (training_data : list record) (sh : shards) (out : list printed) :
  tokenize_data parser_list ds = Returned training_data sh out ->
  (exists reactant_max product_max count,
     out = [ PrintMax reactant_max product_max;
             PrintTotal (length training_data
                         + length (lookup_failures parser_list ds));
             PrintCut count;
             PrintSplit (length (dev_file sh))
                        (Z.of_nat (length (train_file sh)
                                   + length (lookup_failures parser_list ds))) ])
  /\ length (train_file sh) + length (dev_file sh) = length training_data.
Proof.
  unfold tokenize_data.
  pose proof (tokenize_token_len parser_list ds) as Hlen.
  pose proof (emitted_flat parser_list ds) as Hem.
  pose proof (token_len_count parser_list ds (rxns ds)) as Hcount.
  rewrite <- Hlen, <- Hem in Hcount.
  fold (lookup_failures parser_list ds) in Hcount.
  destruct (split_shards_lengths (ts_training_file (tokenize_loop parser_list ds)))
    as [Hc Hs].
  remember (ts_token_len (tokenize_loop parser_list ds)) as token_len eqn:E.
  remember (length token_len) as total eqn:Et.
  destruct token_len as [|tl0 tls]; [discriminate|].
  remember (tl0 :: tls) as token_len eqn:E'.
  remember (split_shards (ts_training_file (tokenize_loop parser_list ds)))
    as sh0 eqn:Esh.
  intros H.
  assert (H1 : training_data = ts_training_file (tokenize_loop parser_list ds))
    by congruence.
  assert (H2 : sh = sh0) by congruence.
  assert (H3 : out = [ PrintMax (fold_right Nat.max 0 (map fst token_len))
                                (fold_right Nat.max 0 (map snd token_len));
                       PrintTotal total; PrintCut (cut_counts token_len);
                       PrintSplit (dev_count sh0)
                                  (Z.of_nat total - Z.of_nat (dev_count sh0))%Z ])
    by congruence.
  subst training_data sh out. split; [|exact Hs].
  do 3 eexists. rewrite Hc, Hcount. do 3 f_equal. f_equal. f_equal. lia.
Qed.

Lemma tokenize_data_prints_witness :
  tokenize_data sample_parser sample_dataset_short
  = Returned [([3; 4; 5; 6], [4; 3], "CO>N>OC"%string)]
             (mkShards [([3; 4; 5; 6], [4; 3])] [] 0)
             [PrintMax 6 3; PrintTotal 2; PrintCut [2; 2; 2; 2; 0];
              PrintSplit 0 2%Z]
  /\ length (lookup_failures sample_parser sample_dataset_short) = 1
  /\ (exists reactant_max product_max count,
        [PrintMax 6 3; PrintTotal 2; PrintCut [2; 2; 2; 2; 0]; PrintSplit 0 2%Z]
        = [ PrintMax reactant_max product_max;
            PrintTotal (1 + length (lookup_failures sample_parser
                                      sample_dataset_short));
            PrintCut count;
            PrintSplit 0 (Z.of_nat
                            (1 + length (lookup_failures sample_parser
                                           sample_dataset_short))) ]).
Proof.
  split; [reflexivity|]. split; [reflexivity|].
  apply (tokenize_data_prints sample_parser sample_dataset_short
           [([3; 4; 5; 6], [4; 3], "CO>N>OC"%string)]
           (mkShards [([3; 4; 5; 6], [4; 3])] [] 0)
           [PrintMax 6 3; PrintTotal 2; PrintCut [2; 2; 2; 2; 0];
            PrintSplit 0 2%Z]).
  reflexivity.
Defined.

Lemma written_or_recorded parser_list ds (irs : list (nat * Rxn)) :
  length (emitted_on parser_list ds irs)
  + length (tokenize_failures_on parser_list ds irs) = length irs
  /\ forall k, In k (map fst (tokenize_failures_on parser_list ds irs)) ->
               In k (map fst irs).
Proof.
  unfold emitted_on, tokenize_failures_on.
  induction irs as [|[i rxn] irs [IHl IHk]]; [split; [reflexivity|easy]|].
  cbn [flat_map fst snd map]. rewrite !length_app. cbn [length]. split.
  - destruct (tokenized parser_list ds rxn); simpl; lia.
  - intros k. rewrite map_app, in_app_iff. intros [H|H].
    + destruct (tokenized parser_list ds rxn); [easy|].
      destruct H as [<-|[]]. now left.
    + right. now apply IHk.
Qed.

Lemma NoDup_failure_keys parser_list ds (irs : list (nat * Rxn)) :
  NoDup (map fst irs) ->
  NoDup (map fst (tokenize_failures_on parser_list ds irs)).
Proof.
  induction irs as [|[i rxn] irs IH]; intros Hnd; [constructor|].
  simpl in Hnd. inversion Hnd as [|? ? Hni Hnd']; subst.
  unfold tokenize_failures_on. cbn [flat_map fst snd].
  destruct (tokenized parser_list ds rxn); simpl; [now apply IH|].
  constructor; [|now apply IH].
  intros H. apply Hni. now apply (written_or_recorded parser_list ds irs).
Qed.

(** X5. After the first loop of [tokenize_data] every reaction of the
    corpus is either written to the training data or entered in
    [error_rsmi], never both and never neither: the two sizes add up to
    the size of the corpus, and [error_rsmi] holds at most one entry per
    reaction index. *)
Theorem every_reaction_written_or_recorded
  (parser_list : string -> option (list token)) (ds : RxnDataset) :
  length (ts_training_file (tokenize_loop parser_list ds))
  + length (ts_errors (tokenize_loop parser_list ds)) = length (rxns ds)
  /\ NoDup (map fst (ts_errors (tokenize_loop parser_list ds)))
  /\ forall i s,
       In (i, s) (ts_errors (tokenize_loop parser_list ds)) ->
       i < length (rxns ds).
Proof.
  destruct (tokenize_loop_eq parser_list ds) as [-> ->].
  unfold emitted, tokenize_failures.
  destruct (written_or_recorded parser_list ds (enumerate (rxns ds)))
    as [Hlen Hk].
  split; [|split].
  - rewrite Hlen. unfold enumerate.
    rewrite length_combine, length_seq. apply Nat.min_id.
  - apply NoDup_failure_keys. rewrite enumerate_keys. apply seq_NoDup.
  - intros i s H. apply (in_map fst) in H. apply Hk in H.
    rewrite enumerate_keys in H. apply in_seq in H. simpl in H. lia.
Qed.

(** ** Token ids *)

Lemma index_Some (l : list token) (x : token) : forall n,
  index l x = Some n ->
  nth_error l n = Some x /\ forall j, j < n -> nth_error l j <> Some x.
Proof.
  induction l as [|y l IH]; intros n H; simpl in H; [discriminate|].
  destruct (String.eqb_spec y x) as [->|Hne].
  - injection H as <-. split; [reflexivity|]. intros j Hj. lia.
  - destruct (index l x) as [m|]; [|discriminate]. injection H as <-.
    destruct (IH m eq_refl) as [Hm Hfirst]. split; [exact Hm|].
    intros [|j] Hj; simpl; [congruence|]. apply Hfirst. lia.
Qed.

Lemma index_None (l : list token) (x : token) :
  index l x = None <-> ~ In x l.
Proof.
  induction l as [|y l IH]; simpl; [tauto|].
  destruct (String.eqb_spec y x) as [->|Hne].
  - split; [discriminate|]. intros H. exfalso. apply H. now left.
  - destruct (index l x); split; try discriminate; try tauto.
    intros H. exfalso. assert (Hn : ~ In x l) by tauto.
    apply IH in Hn. discriminate.
Qed.

Lemma index_all_decodes (tl : option (list token)) (toks : list token) :
  forall ids, index_all tl toks = Some ids -> decodes tl ids toks.
Proof.
  unfold decodes.
  induction toks as [|t toks IH]; intros ids H; simpl in H.
  - injection H as <-. constructor.
  - destruct tl as [l|]; [|discriminate].
    destruct (index l t) as [n|] eqn:En; [|discriminate].
    destruct (index_all (Some l) toks) as [ns|]; [|discriminate].
    injection H as <-. constructor; [|now apply IH].
    exists l. split; [reflexivity|]. now apply index_Some.
Qed.

(** X6. Every record [tokenize_data] writes can be read back: it comes
    from a reaction of the corpus whose reaction string it carries, and
    its two id sequences stand, id by id, for the reactant-side and the
    product-side tokens of that reaction, each id being the first
    position of its token in the token list. *)
Theorem written_records_decode
  (parser_list : string -> option (list token)) (ds : RxnDataset)
  (rids pids : list nat) (s : string) :
  In (rids, pids, s) (ts_training_file (tokenize_loop parser_list ds)) ->
  exists rxn reactant_list product_list,
    In rxn (rxns ds) /\ smile rxn = s
    /\ rxn_tokens parser_list rxn = Some (reactant_list, product_list)
    /\ decodes (reactant_token_list ds) rids reactant_list
    /\ decodes (product_token_list ds) pids product_list.
Proof.
  rewrite emitted_flat, in_flat_map. intros (rxn & Hin & H).
  unfold tokenized in H.
  destruct (rxn_tokens parser_list rxn) as [[rl pl]|] eqn:Et; [|easy].
  simpl in H. unfold rxn_record in H.
  destruct (index_all (reactant_token_list ds) rl) as [rs|] eqn:Er; [|easy].
  destruct (index_all (product_token_list ds) pl) as [ps|] eqn:Ep; [|easy].
  destruct H as [[= <- <- <-]|[]].
  exists rxn, rl, pl. repeat split; auto using index_all_decodes.
Qed.

Lemma written_records_decode_witness :
  exists rxn reactant_list product_list,
    In rxn (rxns sample_dataset) /\ smile rxn = "CO>N>OC"%string
    /\ rxn_tokens sample_parser rxn = Some (reactant_list, product_list)
    /\ decodes (reactant_token_list sample_dataset) [3; 4; 5; 6] reactant_list
    /\ decodes (product_token_list sample_dataset) [4; 3] product_list.
Proof.
  apply (written_records_decode sample_parser sample_dataset).
  vm_compute. tauto.
Defined.

(** ** Token lists that cannot serve *)

Lemma join_lists_separator rl gl pl r p :
  join_lists rl gl pl = Some (r, p) -> In ">"%string r.
Proof.
  unfold join_lists.
  destruct (pop rl) as [a|]; [|discriminate].
  destruct (pop gl) as [b|]; [|discriminate].
  destruct (pop pl) as [c|]; [|discriminate].
  intros [= <- <-]. apply in_or_app. right. now left.
Qed.

Lemma rxn_tokens_separator parser_list rxn r p :
  rxn_tokens parser_list rxn = Some (r, p) -> In ">"%string r.
Proof.
  unfold rxn_tokens.
  destruct (parse_mols parser_list (rxn_reactants rxn)); [|discriminate].
  destruct (parse_mols parser_list (rxn_reagents rxn)); [|discriminate].
  destruct (parse_mols parser_list (rxn_products rxn)); [|discriminate].
  apply join_lists_separator.
Qed.

Lemma index_all_missing (tl : option (list token)) (toks : list token) t :
  In t toks ->
  (forall l, tl = Some l -> ~ In t l) ->
  index_all tl toks = None.
Proof.
  intros Hin Hmiss. induction toks as [|u toks IH]; [easy|].
  simpl. destruct tl as [l|]; [|reflexivity].
  destruct Hin as [->|Hin].
  - assert (H : index l t = None) by now apply index_None, Hmiss.
    now rewrite H.
  - rewrite (IH Hin). now destruct (index l u).
Qed.

Lemma tokenized_without_separator parser_list ds rxn :
  (forall l, reactant_token_list ds = Some l -> ~ In ">"%string l) ->
  tokenized parser_list ds rxn = None.
Proof.
  intros Hmiss. unfold tokenized.
  destruct (rxn_tokens parser_list rxn) as [[r p]|] eqn:E; [|reflexivity].
  simpl. unfold rxn_record.
  rewrite (index_all_missing _ r ">"%string); auto.
  now apply rxn_tokens_separator in E.
Qed.

Lemma nothing_written parser_list ds (l : list Rxn) :
  (forall l, reactant_token_list ds = Some l -> ~ In ">"%string l) ->
  flat_map (fun rxn => match tokenized parser_list ds rxn with
                       | Some r => [r]
                       | None => []
                       end) l = [].
Proof.
  intros Hmiss. induction l as [|rxn l IH]; [reflexivity|].
  simpl. now rewrite tokenized_without_separator.
Qed.

Lemma all_recorded parser_list ds (irs : list (nat * Rxn)) :
  (forall l, reactant_token_list ds = Some l -> ~ In ">"%string l) ->
  tokenize_failures_on parser_list ds irs
  = map (fun ir => (fst ir, smile (snd ir))) irs.
Proof.
  intros Hmiss. unfold tokenize_failures_on.
  induction irs as [|ir irs IH]; [reflexivity|].
  simpl. now rewrite tokenized_without_separator, IH.
Qed.

Lemma enumerate_map {A B : Type} (f : A -> B) (l : list A) :
  map (fun ia => (fst ia, f (snd ia))) (enumerate l) = enumerate (map f l).
Proof.
  unfold enumerate. rewrite length_map. generalize 0.
  induction l as [|a l IH]; intros n; simpl; [reflexivity|].
  now rewrite IH.
Qed.

(** X7. Every reactant-side token sequence holds the boundary token
    [">"], so [tokenize_data] writes a record only when
    [self.reactant_token_list] is there and holds [">"].  On an object
    without that attribute, or whose list lacks [">"], nothing is
    written, both shards stay empty, and [error_rsmi] ends up holding
    every reaction of the corpus under its index. *)
Theorem no_separator_nothing_written
  (parser_list : string -> option (list token)) (ds : RxnDataset) :
  (forall l, reactant_token_list ds = Some l -> ~ In ">"%string l) ->
  ts_training_file (tokenize_loop parser_list ds) = []
  /\ ts_errors (tokenize_loop parser_list ds) = enumerate (rxn_smiles ds)
  /\ forall training_data sh out,
       tokenize_data parser_list ds = Returned training_data sh out ->
       training_data = [] /\ train_file sh = [] /\ dev_file sh = [].
Proof.
  intros Hmiss.
  assert (Hnone : ts_training_file (tokenize_loop parser_list ds) = []).
  { rewrite emitted_flat. now apply nothing_written. }
  split; [exact Hnone|]. split.
  - destruct (tokenize_loop_eq parser_list ds) as [_ ->].
    unfold tokenize_failures. rewrite all_recorded by exact Hmiss.
    apply enumerate_map.
  - intros tf sh out. unfold tokenize_data. rewrite Hnone.
    destruct (ts_token_len (tokenize_loop parser_list ds)); [discriminate|].
    intros H. injection H as <- <- _. now repeat split.
Qed.

Lemma no_separator_nothing_written_witness :
  ts_training_file (tokenize_loop sample_parser sample_dataset_bare) = []
  /\ ts_errors (tokenize_loop sample_parser sample_dataset_bare)
     = enumerate (rxn_smiles sample_dataset_bare)
  /\ forall training_data sh out,
       tokenize_data sample_parser sample_dataset_bare
       = Returned training_data sh out ->
       training_data = [] /\ train_file sh = [] /\ dev_file sh = [].
Proof.
  apply (no_separator_nothing_written sample_parser sample_dataset_bare).
  intros l H. discriminate H.
Defined.

Lemma seq_nth_combine {A : Type} (l : list A) (d : A) : forall a,
  flat_map (fun i => [(i, nth (i - a) l d)]) (seq a (length l))
  = combine (seq a (length l)) l.
Proof.
  induction l as [|x l IH]; intros a; [reflexivity|].
  cbn [length seq flat_map combine app]. rewrite Nat.sub_diag. cbn [nth].
  f_equal. rewrite <- IH. rewrite !flat_map_concat_map. f_equal.
  apply map_ext_in. intros i Hi. apply in_seq in Hi.
  replace (i - a) with (S (i - S a)) by lia. reflexivity.
Qed.

Lemma init_vocab_failures parser_list rs :
  vocab_failures parser_list (init rs) = enumerate (map smile rs).
Proof.
  unfold vocab_failures, vocab_failures_on, rxn_smiles, enumerate.
  cbn [rxns init]. rewrite <- (length_map smile), <- seq_nth_combine with (d := ""%string).
  rewrite !flat_map_concat_map. f_equal.
  apply map_ext_in. intros i _. now rewrite Nat.sub_0_r.
Qed.

(** X8. On an object as [__init__] leaves it, [create_vocab] finds none
    of [self.reactants], [self.reagents], [self.products]: it counts
    nothing, sets both token lists to the three reserved tokens and
    enters every reaction in its [error_rsmi]; [tokenize_data] called
    next finds no [self.reactant_token_list] ([create_vocab] assigned
    [self.reactants_token_list]) and writes no record. *)
Theorem pipeline_on_new_object
  (parser_list : string -> option (list token)) (rs : list Rxn) :
  create_vocab_writes (create_vocab parser_list (init rs))
  = ([], [], Some _START_VOCAB, Some _START_VOCAB)
  /\ vs_errors (vocab_loop parser_list (init rs)) = enumerate (map smile rs)
  /\ ts_training_file
       (tokenize_loop parser_list (create_vocab parser_list (init rs))) = []
  /\ ts_errors
       (tokenize_loop parser_list (create_vocab parser_list (init rs)))
     = enumerate (map smile rs).
Proof.
  assert (Hc : counted_on parser_list (init rs) (seq 0 (length rs)) = ([], [])).
  { unfold counted_on.
    f_equal; induction (seq 0 (length rs)) as [|i l IH];
      try reflexivity; exact IH. }
  assert (Hloop : vocab_loop parser_list (init rs)
                  = mkVocabState [] [] (enumerate (map smile rs))).
  { rewrite vocab_loop_eq. unfold counted_reactants, counted_products.
    cbn [rxns init vocab_reactants vocab_products]. rewrite Hc.
    now rewrite init_vocab_failures. }
  assert (Hmiss : forall l,
            reactant_token_list (create_vocab parser_list (init rs)) = Some l ->
            ~ In ">"%string l) by discriminate.
  split; [|split; [|split]].
  - unfold create_vocab_writes, create_vocab. now rewrite Hloop.
  - now rewrite Hloop.
  - rewrite emitted_flat. now apply nothing_written.
  - destruct (tokenize_loop_eq parser_list (create_vocab parser_list (init rs)))
      as [_ ->].
    unfold tokenize_failures. rewrite all_recorded by exact Hmiss.
    apply enumerate_map.
Qed.

(** ** Ids of the counted tokens *)

Lemma assigns_ids_ranked (d : dict) (counted : list token) :
  (forall t, In t counted -> In t (keys d)) ->
  assigns_ids counted (Some (_START_VOCAB ++ sorted_by_count d)).
Proof.
  intros Hk. eexists. split; [reflexivity|].
  split; [reflexivity|]. split; [reflexivity|]. split; [reflexivity|].
  intros t Ht.
  assert (Hin : In t (_START_VOCAB ++ sorted_by_count d)).
  { apply in_or_app. right. now apply sorted_by_count_keys, Hk. }
  destruct (index (_START_VOCAB ++ sorted_by_count d) t) as [n|] eqn:E.
  - exists n. split; [reflexivity|].
    destruct (index_Some _ _ _ E) as [Hn _].
    split; [apply nth_error_Some; congruence|].
    intros Hres.
    destruct n as [|[|[|n]]]; simpl in Hn; try lia;
      injection Hn as <-; exfalso; apply Hres; simpl; tauto.
  - apply index_None in E. contradiction.
Qed.

(** X9. After [create_vocab], on any object, each token list gives the
    reserved tokens the ids 0, 1 and 2 ([PAD_ID], [GO_ID], [EOS_ID]) and
    has an id for every token counted on its side; the id of a counted
    token that is not spelled like a reserved one is 3 or more. *)
Theorem create_vocab_assigns_ids
  (parser_list : string -> option (list token)) (ds : RxnDataset) :
  assigns_ids (counted_reactants parser_list ds)
              (reactants_token_list (create_vocab parser_list ds))
  /\ assigns_ids (counted_products parser_list ds)
                 (products_token_list (create_vocab parser_list ds)).
Proof.
  unfold create_vocab. rewrite vocab_loop_eq. simpl.
  split; apply assigns_ids_ranked; intros t Ht;
    apply In_keys_count_tokens; now right.
Qed.

(** ** A second call of [create_vocab] *)

Lemma dict_incr_present t (d : dict) :
  NoDup (keys d) -> In t (keys d) ->
  dict_incr t d
  = map (fun kn => if String.eqb (fst kn) t then (fst kn, S (snd kn)) else kn) d.
Proof.
  induction d as [|[k n] d IH]; intros Hnd Hin; [easy|].
  simpl in Hnd. inversion Hnd as [|? ? Hni Hnd']; subst. simpl.
  destruct (String.eqb_spec k t) as [->|Hne].
  - f_equal. symmetry. rewrite <- (map_id d) at 2. apply map_ext_in.
    intros [k' n'] Hk. simpl.
    destruct (String.eqb_spec k' t) as [->|]; [|reflexivity].
    exfalso. apply Hni. change t with (fst (t, n')). now apply in_map.
  - f_equal. apply IH; [exact Hnd'|]. destruct Hin as [Heq|Hin]; [|exact Hin].
    simpl in Heq. congruence.
Qed.

Lemma count_tokens_present (toks : list token) : forall d : dict,
  NoDup (keys d) -> (forall t, In t toks -> In t (keys d)) ->
  count_tokens d toks
  = map (fun kn => (fst kn, snd kn + count_occ string_dec toks (fst kn))) d.
Proof.
  induction toks as [|t toks IH]; intros d Hnd Hin.
  - simpl. rewrite <- (map_id d) at 1. apply map_ext.
    intros [k n]. simpl. f_equal. lia.
  - change (count_tokens d (t :: toks))
      with (count_tokens (dict_incr t d) toks).
    assert (Hk : keys (dict_incr t d) = keys d).
    { rewrite keys_dict_incr.
      destruct (in_dec string_dec t (keys d)) as [|Hn]; [reflexivity|].
      exfalso. apply Hn, Hin. now left. }
    rewrite IH.
    + rewrite dict_incr_present by (auto; apply Hin; now left).
      rewrite map_map. apply map_ext. intros [k n]. cbn [fst snd count_occ].
      destruct (String.eqb_spec k t) as [->|Hne]; cbn [fst snd].
      * destruct (string_dec t t); [f_equal; lia|congruence].
      * destruct (string_dec t k); [congruence|reflexivity].
    + now rewrite Hk.
    + intros u Hu. rewrite Hk. apply Hin. now right.
Qed.

Lemma count_tokens_again (toks : list token) :
  count_tokens (count_tokens [] toks) toks
  = map doubled (count_tokens [] toks).
Proof.
  rewrite count_tokens_present.
  - apply map_ext_in. intros [k n] Hin. unfold doubled. cbn [fst snd].
    now rewrite <- (count_tokens_entries toks k n Hin).
  - apply NoDup_keys_count_tokens. constructor.
  - intros t Ht. apply In_keys_count_tokens. now right.
Qed.

Lemma insert_desc_doubled x l :
  insert_desc (doubled x) (map doubled l) = map doubled (insert_desc x l).
Proof.
  induction l as [|y l IH]; [reflexivity|]. simpl.
  replace (snd y + snd y <=? snd x + snd x) with (snd y <=? snd x).
  - destruct (snd y <=? snd x); simpl; [reflexivity|]. now rewrite IH.
  - destruct (Nat.leb_spec (snd y) (snd x));
      destruct (Nat.leb_spec (snd y + snd y) (snd x + snd x)); lia || reflexivity.
Qed.

Lemma sorted_by_count_doubled (d : dict) :
  sorted_by_count (map doubled d) = sorted_by_count d.
Proof.
  unfold sorted_by_count.
  assert (H : sort_desc (map doubled d) = map doubled (sort_desc d)).
  { induction d as [|x d IH]; [reflexivity|].
    simpl. rewrite IH. apply insert_desc_doubled. }
  rewrite H, map_map. apply map_ext. now intros [k n].
Qed.

(** X10. [create_vocab] is not idempotent.  A second call on the same
    object, started from the empty vocabularies of [__init__], counts
    every token once more: each frequency doubles, no key is added or
    moved, and the two token lists come out as after the first call. *)
Theorem create_vocab_twice
  (parser_list : string -> option (list token)) (ds : RxnDataset) :
  vocab_reactants ds = [] -> vocab_products ds = [] ->
  vocab_reactants (create_vocab parser_list (create_vocab parser_list ds))
  = map doubled (vocab_reactants (create_vocab parser_list ds))
  /\ vocab_products (create_vocab parser_list (create_vocab parser_list ds))
     = map doubled (vocab_products (create_vocab parser_list ds))
  /\ reactants_token_list (create_vocab parser_list (create_vocab parser_list ds))
     = reactants_token_list (create_vocab parser_list ds)
  /\ products_token_list (create_vocab parser_list (create_vocab parser_list ds))
     = products_token_list (create_vocab parser_list ds).
Proof.
  intros Hr Hp.
  assert (Hc : counted_on parser_list (create_vocab parser_list ds)
                 (seq 0 (length (rxns (create_vocab parser_list ds))))
               = counted_on parser_list ds (seq 0 (length (rxns ds))))
    by reflexivity.
  assert (H1 : vocab_reactants (create_vocab parser_list ds)
               = count_tokens [] (counted_reactants parser_list ds)).
  { unfold create_vocab. now rewrite vocab_loop_eq, Hr. }
  assert (H2 : vocab_products (create_vocab parser_list ds)
               = count_tokens [] (counted_products parser_list ds)).
  { unfold create_vocab. now rewrite vocab_loop_eq, Hp. }
  assert (H3 : vocab_reactants
                 (create_vocab parser_list (create_vocab parser_list ds))
               = map doubled (vocab_reactants (create_vocab parser_list ds))).
  { unfold create_vocab at 1. rewrite vocab_loop_eq.
    cbn [vocab_reactants vs_reactants]. unfold counted_reactants at 1.
    rewrite Hc, H1. apply count_tokens_again. }
  assert (H4 : vocab_products
                 (create_vocab parser_list (create_vocab parser_list ds))
               = map doubled (vocab_products (create_vocab parser_list ds))).
  { unfold create_vocab at 1. rewrite vocab_loop_eq.
    cbn [vocab_products vs_products]. unfold counted_products at 1.
    rewrite Hc, H2. apply count_tokens_again. }
  split; [exact H3|]. split; [exact H4|].
  assert (Hl : forall ds0,
            reactants_token_list (create_vocab parser_list ds0)
            = Some (_START_VOCAB ++ sorted_by_count
                      (vocab_reactants (create_vocab parser_list ds0)))
            /\ products_token_list (create_vocab parser_list ds0)
               = Some (_START_VOCAB ++ sorted_by_count
                         (vocab_products (create_vocab parser_list ds0))))
    by (intros ds0; split; reflexivity).
  destruct (Hl ds) as [-> ->].
  destruct (Hl (create_vocab parser_list ds)) as [-> ->].
  rewrite H3, H4, !sorted_by_count_doubled. now split.
Qed.

Lemma create_vocab_twice_witness :
  vocab_reactants (create_vocab sample_parser
                     (create_vocab sample_parser sample_dataset))
  = map doubled (vocab_reactants (create_vocab sample_parser sample_dataset))
  /\ vocab_products (create_vocab sample_parser
                       (create_vocab sample_parser sample_dataset))
     = map doubled (vocab_products (create_vocab sample_parser sample_dataset))
  /\ reactants_token_list (create_vocab sample_parser
                             (create_vocab sample_parser sample_dataset))
     = reactants_token_list (create_vocab sample_parser sample_dataset)
  /\ products_token_list (create_vocab sample_parser
                            (create_vocab sample_parser sample_dataset))
     = products_token_list (create_vocab sample_parser sample_dataset).
Proof.
  apply (create_vocab_twice sample_parser sample_dataset); reflexivity.
Defined.

(** ** The [cut:] statistics *)

Lemma cut_step_eq a b c d e (len : nat * nat) :
  cut_step [a; b; c; d; e] len
  = [ a + (if within 54 54 len then 1 else 0);
      b + (if within 70 60 len then 1 else 0);
      c + (if within 90 65 len then 1 else 0);
      d + (if within 150 80 len then 1 else 0);
      e ].
Proof.
  destruct len as [l0 l1]. unfold cut_step, within, enumerate. cbn [fst snd].
  destruct (Nat.ltb_spec l0 150), (Nat.ltb_spec l1 80);
    destruct (Nat.ltb_spec l0 90), (Nat.ltb_spec l1 65);
    destruct (Nat.ltb_spec l0 70), (Nat.ltb_spec l1 60);
    destruct (Nat.ltb_spec l0 54), (Nat.ltb_spec l1 54);
    try lia; cbn; repeat f_equal; lia.
Qed.

Lemma cut_fold (token_len : list (nat * nat)) : forall a b c d e,
  fold_left cut_step token_len [a; b; c; d; e]
  = [ a + length (filter (within 54 54) token_len);
      b + length (filter (within 70 60) token_len);
      c + length (filter (within 90 65) token_len);
      d + length (filter (within 150 80) token_len);
      e ].
Proof.
  induction token_len as [|len l IH]; intros a b c d e.
  - simpl. now rewrite !Nat.add_0_r.
  - cbn [fold_left filter]. rewrite cut_step_eq, IH.
    destruct (within 54 54 len), (within 70 60 len), (within 90 65 len),
      (within 150 80 len); cbn [length];
      (f_equal; [lia|f_equal; [lia|f_equal; [lia|f_equal; lia]]]).
Qed.

Lemma filter_length_le {A : Type} (p q : A -> bool) (l : list A) :
  (forall x, p x = true -> q x = true) ->
  length (filter p l) <= length (filter q l).
Proof.
  intros Hpq. induction l as [|x l IH]; [reflexivity|]. simpl.
  destruct (p x) eqn:Ep.
  - rewrite (Hpq x Ep). simpl. lia.
  - destruct (q x); simpl; lia.
Qed.

Lemma within_mono a b a' b' len :
  a <= a' -> b <= b' -> within a b len = true -> within a' b' len = true.
Proof.
  unfold within. rewrite !andb_true_iff, !Nat.ltb_lt. lia.
Qed.

(** X11. The five counters [tokenize_data] prints after [cut:] are, in
    this order, the numbers of tokenized reactions whose reactant-side
    and product-side lengths are below (54, 54), (70, 60), (90, 65) and
    (150, 80), and a fifth counter that stays 0; the first four never
    decrease from left to right and none exceeds the number printed
    after [total:]. *)
Theorem cut_counts_form (token_len : list (nat * nat)) :
  cut_counts token_len
  = [ length (filter (within 54 54) token_len);
      length (filter (within 70 60) token_len);
      length (filter (within 90 65) token_len);
      length (filter (within 150 80) token_len);
      0 ]
  /\ length (filter (within 54 54) token_len)
     <= length (filter (within 70 60) token_len)
  /\ length (filter (within 70 60) token_len)
     <= length (filter (within 90 65) token_len)
  /\ length (filter (within 90 65) token_len)
     <= length (filter (within 150 80) token_len)
  /\ length (filter (within 150 80) token_len) <= length token_len.
Proof.
  split; [unfold cut_counts; now rewrite cut_fold|].
  repeat split;
    try (apply filter_length_le; intros x; apply within_mono; lia).
  pose proof (filter_length (within 150 80) token_len). lia.
Qed.

(** ** Dropping large reactions *)

Lemma filter_filter {A : Type} (p q : A -> bool) (l : list A) :
  filter p (filter q l) = filter (fun x => q x && p x) l.
Proof.
  induction l as [|x l IH]; [reflexivity|]. simpl.
  destruct (q x); simpl; [destruct (p x)|]; now rewrite IH.
Qed.

Lemma filter_length_bound {A : Type} (p : A -> bool) (l : list A) :
  length (filter p l) <= length l.
Proof.
  induction l as [|x l IH]; [reflexivity|]. simpl.
  destruct (p x); simpl; lia.
Qed.

(** X12. [remove_max_reactants] and [remove_max_products] only shrink
    the corpus and touch nothing else of the object, so vocabularies and
    token lists built before stay as they were.  Two calls of
    [remove_max_reactants] amount to one call with the smaller bound, the
    two methods can be called in either order, and a negative bound
    empties the corpus. *)
Theorem remove_max_composes (m1 m2 : Z) (ds : RxnDataset) :
  remove_max_reactants m1 (remove_max_reactants m2 ds)
  = remove_max_reactants (Z.min m1 m2) ds
  /\ remove_max_reactants m1 (remove_max_products m2 ds)
     = remove_max_products m2 (remove_max_reactants m1 ds)
  /\ len (remove_max_reactants m1 ds) <= len ds
  /\ create_vocab_writes (remove_max_reactants m1 ds) = create_vocab_writes ds
  /\ ((m1 < 0)%Z -> rxns (remove_max_reactants m1 ds) = []).
Proof.
  unfold remove_max_reactants, remove_max_products, set_rxns, len.
  cbn [rxns vocab_reactants vocab_products reactants reagents products
       reactants_token_list products_token_list reactant_token_list
       product_token_list].
  split; [|split; [|split; [|split]]].
  - f_equal. rewrite filter_filter. apply filter_ext. intros rxn.
    destruct (Z.leb_spec (Z.of_nat (length (rxn_reactants rxn))) m1),
      (Z.leb_spec (Z.of_nat (length (rxn_reactants rxn))) m2),
      (Z.leb_spec (Z.of_nat (length (rxn_reactants rxn))) (Z.min m1 m2));
      simpl; lia || reflexivity.
  - f_equal. rewrite !filter_filter. apply filter_ext. intros rxn.
    apply andb_comm.
  - apply filter_length_bound.
  - reflexivity.
  - intros Hneg. induction (rxns ds) as [|rxn l IH]; [reflexivity|].
    simpl. destruct (Z.leb_spec (Z.of_nat (length (rxn_reactants rxn))) m1);
      [lia|exact IH].
Qed.

End DatasetTheory.

(* ################################################################# *)
(** * Part V: the reactivity network and its trainer *)

Module ReactivityTheory.

Import Reactivity.
Local Open Scope list_scope.
Local Open Scope nat_scope.

(** ** [torch.topk] *)

Lemma insert_score_perm x l : Permutation (insert_desc x l) (x :: l).
Proof.
  induction l as [|y l IH]; simpl; [reflexivity|].
  destruct (Qle_bool (snd y) (snd x)); [reflexivity|].
  rewrite IH. apply perm_swap.
Qed.

Lemma sort_score_perm l : Permutation (sort_desc l) l.
Proof.
  induction l as [|x l IH]; simpl; [reflexivity|].
  rewrite insert_score_perm. now constructor.
Qed.

Lemma insert_score_sorted x l :
  StronglySorted score_ge l -> StronglySorted score_ge (insert_desc x l).
Proof.
  induction l as [|y l IH]; intros H; simpl.
  - repeat constructor.
  - inversion H as [|? ? Hs Hall]; subst.
    destruct (Qle_bool (snd y) (snd x)) eqn:Hc.
    + apply Qle_bool_iff in Hc.
      constructor; [exact H|]. constructor; [exact Hc|].
      eapply Forall_impl; [|exact Hall]. unfold score_ge.
      intros z Hz. now apply Qle_trans with (snd y).
    + assert (Hlt : (snd x < snd y)%Q).
      { apply Qnot_le_lt. intros Hle. apply Qle_bool_iff in Hle. congruence. }
      constructor; [now apply IH|].
      rewrite Forall_forall. intros z Hz.
      apply (Permutation_in _ (insert_score_perm x l)) in Hz as [<-|Hz].
      * unfold score_ge. now apply Qlt_le_weak.
      * rewrite Forall_forall in Hall. now apply Hall.
Qed.

Lemma sort_score_sorted l : StronglySorted score_ge (sort_desc l).
Proof.
  induction l as [|x l IH]; simpl; [constructor|].
  now apply insert_score_sorted.
Qed.

(** What [topk] returns: [k] distinct positions of the row, none of
    which scores less than a position left out. *)
Lemma topk_spec k row T :
  topk k row = Some T ->
  length T = k
  /\ NoDup T
  /\ (forall t, In t T -> t < length row)
  /\ (forall t c, In t T -> c < length row -> ~ In c T ->
        (nth c row 0 <= nth t row 0)%Q).
Proof.
  unfold topk. destruct (Nat.ltb_spec (length row) k) as [|Hk]; [easy|].
  intros [= <-].
  set (srt := sort_desc (enumerate row)).
  assert (HP : Permutation srt (enumerate row)) by apply sort_score_perm.
  assert (HK : Permutation (map fst srt) (seq 0 (length row))).
  { unfold enumerate in HP. rewrite <- (combine_seq_keys row 0).
    now apply Permutation_map. }
  assert (Hsplit : map fst srt = firstn k (map fst srt) ++ skipn k (map fst srt))
    by now rewrite firstn_skipn.
  assert (Hin : forall t v, In (t, v) srt <-> nth_error row t = Some v).
  { intros t v. rewrite <- In_enumerate. split; apply Permutation_in;
      [exact HP|now apply Permutation_sym]. }
  split; [|split; [|split]].
  - rewrite length_firstn, (Permutation_length HK), length_seq. lia.
  - apply (NoDup_app_remove_r _ (skipn k (map fst srt))).
    rewrite <- Hsplit. apply (Permutation_NoDup (Permutation_sym HK)), seq_NoDup.
  - intros t Ht. apply in_seq with (start := 0).
    apply (Permutation_in _ HK). rewrite Hsplit. apply in_or_app. now left.
  - intros t c Ht Hc Hnc.
    rewrite firstn_map in Ht, Hnc.
    apply in_map_iff in Ht as ([t' v] & Hfst & Ht). simpl in Hfst. subst t'.
    assert (HS : In (c, nth c row 0%Q) srt) by now apply Hin, nth_error_nth'.
    rewrite <- (firstn_skipn k srt) in HS. apply in_app_or in HS as [HS|HS].
    { exfalso. apply Hnc. apply in_map_iff. now exists (c, nth c row 0%Q). }
    pose proof (sort_score_sorted (enumerate row)) as Hsorted. fold srt in Hsorted.
    rewrite <- (firstn_skipn k srt) in Hsorted.
    pose proof (sorted_app_le _ _ _ Hsorted _ _ Ht HS) as Hge.
    unfold score_ge in Hge. simpl in Hge.
    assert (Hv : nth t row 0%Q = v).
    { apply nth_error_nth. apply Hin. rewrite <- (firstn_skipn k srt).
      apply in_or_app. now left. }
    now rewrite Hv.
Qed.

(** The ten best are the first ten of the twenty best. *)
Lemma topk_prefix j k row T :
  j <= k -> topk k row = Some T -> topk j row = Some (firstn j T).
Proof.
  unfold topk. intros Hjk.
  destruct (Nat.ltb_spec (length row) k) as [|Hk]; [easy|].
  intros [= <-].
  destruct (Nat.ltb_spec (length row) j) as [|Hj]; [lia|].
  now rewrite firstn_firstn, Nat.min_l.
Qed.

(** ** Element-wise operations and loops *)

Lemma nth_error_map2 {A B C : Type} (f : A -> B -> C) : forall a b i,
  nth_error (map2 f a b) i
  = match nth_error a i, nth_error b i with
    | Some x, Some y => Some (f x y)
    | _, _ => None
    end.
Proof.
  unfold map2. induction a as [|x a IH]; intros b i.
  - simpl. now destruct i.
  - destruct b as [|y b]; simpl.
    + destruct i as [|i]; simpl; [reflexivity|]. now destruct (nth_error a i).
    + destruct i as [|i]; simpl; [reflexivity|]. apply IH.
Qed.

Lemma length_map2 {A B C : Type} (f : A -> B -> C) a b :
  length (map2 f a b) = Nat.min (length a) (length b).
Proof. unfold map2. now rewrite length_map, length_combine. Qed.

Lemma traverse_nth {A B : Type} (f : A -> option B) : forall l r i a,
  traverse f l = Some r -> nth_error l i = Some a ->
  exists b, nth_error r i = Some b /\ f a = Some b.
Proof.
  induction l as [|x l IH]; intros r i a Ht Hn.
  - now destruct i.
  - simpl in Ht. destruct (f x) as [b|] eqn:Hx; [|easy].
    destruct (traverse f l) as [bs|] eqn:Hl; [|easy].
    injection Ht as <-. destruct i as [|i]; simpl in *.
    + injection Hn as <-. now exists b.
    + now apply (IH bs).
Qed.

(** ** Masking *)

Lemma mask_score_le l s : (mask_score l s <= s)%Q.
Proof.
  unfold mask_score. destruct (Z.eqb l (-1)); [unfold score in *; Lqa.lra|apply Qle_refl].
Qed.

Lemma masked_row_le (labels : list label) (scores : list score) t :
  t < length (masked_row labels scores) ->
  (nth t (masked_row labels scores) 0 <= nth t scores 0)%Q.
Proof.
  intros Ht. unfold masked_row in *.
  destruct (nth_error (map2 mask_score labels scores) t) as [m|] eqn:Hm;
    [|apply nth_error_None in Hm; lia].
  rewrite (nth_error_nth _ _ _ Hm). rewrite nth_error_map2 in Hm.
  destruct (nth_error labels t) as [l|]; [|easy].
  destruct (nth_error scores t) as [s|] eqn:Hs; [|easy].
  injection Hm as <-. rewrite (nth_error_nth _ _ _ Hs). apply mask_score_le.
Qed.

Lemma masked_row_valid (labels : list label) (scores : list score) c l :
  nth_error labels c = Some l -> l <> (-1)%Z -> c < length scores ->
  nth c (masked_row labels scores) 0%Q = nth c scores 0%Q.
Proof.
  intros Hl Hne Hc. apply nth_error_nth. unfold masked_row.
  rewrite nth_error_map2, Hl, (@nth_error_nth' _ scores c 0%Q Hc).
  unfold mask_score. apply Z.eqb_neq in Hne. now rewrite Hne.
Qed.


(** ** Counting *)


(** ** Top-k over masked scores *)



Lemma topk_keeps_top (labels : list label) (scores : list score) k T c l :
  topk k (masked_row labels scores) = Some T ->
  nth_error labels c = Some l -> l <> (-1)%Z ->
  strictly_in_top k scores c ->
  In c T.
Proof.
  intros Htop Hl Hne [Hc Hout].
  destruct (in_dec Nat.eq_dec c T) as [|Hn]; [assumption|exfalso].
  destruct (topk_spec _ _ _ Htop) as (HlenT & HndT & Hrange & Hord).
  assert (Hrow : length (masked_row labels scores)
                 = Nat.min (length labels) (length scores)).
  { unfold masked_row. now rewrite length_map2. }
  assert (Hclen : c < length labels) by (apply nth_error_Some; congruence).
  assert (Hincl : incl T (outranking scores c)).
  { intros t Ht. pose proof (Hrange t Ht) as Htlen.
    unfold outranking. rewrite filter_In, in_seq, andb_true_iff, negb_true_iff.
    split; [lia|]. split.
    - apply Nat.eqb_neq. intros ->. contradiction.
    - apply Qle_bool_iff.
      rewrite <- (masked_row_valid labels scores c l Hl Hne Hc).
      eapply Qle_trans; [apply (Hord t c Ht); [lia|exact Hn]|].
      now apply masked_row_le. }
  apply NoDup_incl_length in Hincl; [lia|exact HndT].
Qed.

(** ** The sparse label and top-k tables *)

Lemma mol_select_app sp1 sp2 i :
  mol_select (sp1 ++ sp2) i = mol_select sp1 i ++ mol_select sp2 i.
Proof. unfold mol_select. now rewrite filter_app, map_app. Qed.

Lemma mol_select_row j cols i :
  mol_select (map (pair j) cols) i = if Nat.eqb j i then cols else [].
Proof.
  unfold mol_select. induction cols as [|c cols IH]; simpl.
  - now destruct (Nat.eqb j i).
  - destruct (Nat.eqb j i) eqn:E; simpl; now rewrite IH.
Qed.

(** Row [i] of a table built row by row from [l] is what [g] makes of
    the [i]-th element of [l]. *)
Lemma mol_select_rows {A : Type} (g : A -> list nat) (d : A) (l : list A) :
  g d = [] ->
  forall a i, a <= i ->
  mol_select
    (flat_map (fun jr => map (pair (fst jr)) (g (snd jr)))
              (combine (seq a (length l)) l)) i
  = g (nth (i - a) l d).
Proof.
  intros Hd. induction l as [|y l IH]; intros a i Hle.
  - simpl. now destruct (i - a).
  - cbn [length seq combine flat_map fst snd].
    rewrite mol_select_app, mol_select_row.
    destruct (Nat.eqb_spec a i) as [->|Hne].
    + rewrite Nat.sub_diag. cbn [nth].
      assert (Hrest : forall b, i < b ->
                mol_select
                  (flat_map (fun jr => map (pair (fst jr)) (g (snd jr)))
                            (combine (seq b (length l)) l)) i = []).
      { clear IH. induction l as [|z l IHl]; intros b Hb; [reflexivity|].
        cbn [length seq combine flat_map fst snd].
        rewrite mol_select_app, mol_select_row, IHl by lia.
        destruct (Nat.eqb_spec b i); [lia|reflexivity]. }
      rewrite Hrest by lia. apply app_nil_r.
    + rewrite IH by lia. replace (i - a) with (S (i - S a)) by lia.
      reflexivity.
Qed.

Lemma mol_labels_row bond_labels i :
  mol_labels bond_labels i = ones (nth i bond_labels []).
Proof.
  unfold mol_labels, sp_labels, enumerate.
  rewrite (mol_select_rows ones []) by (reflexivity || lia).
  now rewrite Nat.sub_0_r.
Qed.

Lemma mol_topk_row top_k i : mol_topk top_k i = nth i top_k [].
Proof.
  unfold mol_topk, sp_top_k, enumerate.
  rewrite (mol_select_rows (fun r => r) []) by (reflexivity || lia).
  now rewrite Nat.sub_0_r.
Qed.

Lemma In_ones row c : In c (ones row) <-> nth_error row c = Some 1%Z.
Proof.
  unfold ones. rewrite in_map_iff. split.
  - intros ([c' l] & <- & H). apply filter_In in H as [H Hl]. simpl in *.
    apply In_enumerate in H. apply Z.eqb_eq in Hl. now subst.
  - intros H. exists (c, 1%Z). split; [reflexivity|].
    apply filter_In. split; [now apply In_enumerate|reflexivity].
Qed.

Lemma all_correct_hits labels topk :
  all_correct (hits labels topk) = 1
  <-> forall c, In c labels -> In c topk.
Proof.
  unfold all_correct, hits.
  destruct (forallb (fun b => b) (map _ labels)) eqn:E.
  - split; [intros _|reflexivity].
    rewrite forallb_forall in E. intros c Hc.
    specialize (E _ (in_map _ _ _ Hc)). simpl in E.
    apply existsb_exists in E as (t & Ht & Heq).
    apply Nat.eqb_eq in Heq. now subst.
  - split; [discriminate|]. intros H. exfalso.
    assert (Ht : forallb (fun b => b)
                   (map (fun c => existsb (Nat.eqb c) topk) labels) = true).
    { apply forallb_forall. intros b Hb.
      apply in_map_iff in Hb as (c & <- & Hc).
      apply existsb_exists. exists c. split; [now apply H|apply Nat.eqb_refl]. }
    congruence.
Qed.

Lemma all_correct_10_iff bond_labels top_k i :
  all_correct_10 bond_labels top_k i = 1
  <-> forall c, changed bond_labels i c -> In c (firstn 10 (nth i top_k [])).
Proof.
  unfold all_correct_10, changed.
  rewrite all_correct_hits, mol_labels_row, mol_topk_row.
  split; intros H c Hc; apply H; now apply In_ones.
Qed.

Lemma all_correct_20_iff bond_labels top_k i :
  all_correct_20 bond_labels top_k i = 1
  <-> forall c, changed bond_labels i c -> In c (nth i top_k []).
Proof.
  unfold all_correct_20, changed.
  rewrite all_correct_hits, mol_labels_row, mol_topk_row.
  split; intros H c Hc; apply H; now apply In_ones.
Qed.

(** ** The claims about top-k and accuracy *)





(** C3. Example [i] of a batch is counted for accuracy at 10 exactly
    when every pair of it labelled 1 is among the first ten entries of
    its row of [top_k], and for accuracy at 20 exactly when every such
    pair is in its row of [top_k]; each count is 0 or 1.  The row the
    forward pass selects is the top 20 of the masked scores and its
    first ten entries are their top 10.  With that [top_k], an example
    whose changed pairs each have fewer than 20 other pairs scoring at
    least as high is counted for accuracy at 20. *)
Theorem accuracy_counts_captured_examples
  (bond_labels : list (list label)) (top_k : list (list nat)) (i : nat) :
  (all_correct_10 bond_labels top_k i = 1
   <-> forall c, changed bond_labels i c -> In c (firstn 10 (nth i top_k [])))
  /\ (all_correct_20 bond_labels top_k i = 1
      <-> forall c, changed bond_labels i c -> In c (nth i top_k []))
  /\ all_correct_10 bond_labels top_k i <= 1
  /\ all_correct_20 bond_labels top_k i <= 1
  /\ (forall pair_scores labels scores,
        select_top_k pair_scores bond_labels = Some top_k ->
        nth_error bond_labels i = Some labels ->
        nth_error pair_scores i = Some scores ->
        topk 20 (masked_row labels scores) = Some (nth i top_k [])
        /\ topk 10 (masked_row labels scores)
           = Some (firstn 10 (nth i top_k [])))
  /\ forall pair_scores,
       select_top_k pair_scores bond_labels = Some top_k ->
       (forall c, changed bond_labels i c ->
                  strictly_in_top 20 (nth i pair_scores []) c) ->
       all_correct_20 bond_labels top_k i = 1.
Proof.
  split; [apply all_correct_10_iff|]. split; [apply all_correct_20_iff|].
  split; [unfold all_correct_10, all_correct; destruct (forallb _ _); lia|].
  split; [unfold all_correct_20, all_correct; destruct (forallb _ _); lia|].
  split.
  { intros pair_scores labels scores Hsel Hl Hs. unfold select_top_k in Hsel.
    destruct (traverse_nth (topk 20) _ top_k i (masked_row labels scores) Hsel)
      as (T & HT & Htopk).
    { now rewrite nth_error_map2, Hl, Hs. }
    rewrite (nth_error_nth _ _ _ HT). split; [exact Htopk|].
    apply (topk_prefix 10 20); [lia|exact Htopk]. }
  intros pair_scores Hsel Htop. apply all_correct_20_iff. intros c Hc.
  specialize (Htop c Hc). destruct Htop as [Hlen Hout].
  unfold changed in Hc.
  assert (Hi : i < length bond_labels).
  { destruct (Nat.lt_ge_cases i (length bond_labels)) as [|Hge]; [assumption|].
    rewrite (nth_overflow _ _ Hge) in Hc. now destruct c. }
  assert (Hj : i < length pair_scores).
  { destruct (Nat.lt_ge_cases i (length pair_scores)) as [|Hge]; [assumption|].
    rewrite (nth_overflow _ _ Hge) in Hlen. simpl in Hlen. lia. }
  unfold select_top_k in Hsel.
  destruct (traverse_nth (topk 20) _ top_k i
              (masked_row (nth i bond_labels []) (nth i pair_scores [])) Hsel)
    as (T & HT & Htopk).
  { now rewrite nth_error_map2, (nth_error_nth' _ [] Hi),
      (nth_error_nth' _ [] Hj). }
  rewrite (nth_error_nth _ _ _ HT).
  apply (topk_keeps_top _ _ 20 T c 1%Z Htopk Hc); [discriminate|].
  now split.
Qed.

(** C10. An example none of whose labels is 1 is counted for accuracy at
    10 and at 20, whatever its row of [top_k] holds. *)
Theorem no_changed_pair_counts_correct
  (bond_labels : list (list label)) (top_k : list (list nat)) (i : nat) :
  Forall (fun l => l <> 1%Z) (nth i bond_labels []) ->
  all_correct_10 bond_labels top_k i = 1
  /\ all_correct_20 bond_labels top_k i = 1.
Proof.
  intros Hno. rewrite Forall_forall in Hno.
  assert (Hnone : forall c, ~ changed bond_labels i c).
  { intros c Hc. apply (Hno 1%Z); [exact (nth_error_In _ _ Hc)|reflexivity]. }
  split; [apply all_correct_10_iff|apply all_correct_20_iff];
    intros c Hc; now apply Hnone in Hc.
Qed.

Lemma no_changed_pair_counts_correct_witness :
  all_correct_10 [[0; -1; 0; -1]%Z; [1; 0; 0; 0]%Z] [[3; 1]; [2; 3]] 0 = 1
  /\ all_correct_20 [[0; -1; 0; -1]%Z; [1; 0; 0; 0]%Z] [[3; 1]; [2; 3]] 0 = 1.
Proof.
  apply (no_changed_pair_counts_correct
           [[0; -1; 0; -1]%Z; [1; 0; 0; 0]%Z] [[3; 1]; [2; 3]] 0).
  repeat constructor; discriminate.
Defined.

Lemma accuracy_counts_captured_examples_witness :
  all_correct_20 [sample_labels] [seq 0 20] 0 = 1.
Proof.
  apply (proj2 (proj2 (proj2 (proj2 (proj2
           (accuracy_counts_captured_examples [sample_labels] [seq 0 20] 0)))))
         [sample_scores]).
  - reflexivity.
  - intros c Hc. unfold changed in Hc. simpl in Hc.
    destruct c as [|c].
    + split; vm_compute; lia.
    + do 20 (destruct c as [|c]; [discriminate Hc|]). destruct c; discriminate Hc.
Defined.


(** ** The loss *)

Lemma Rsum_masked (xs : list (score * label)) :
  Rsum (map (fun sl => masked_loss (fst sl) (snd sl)) xs)
  = Rsum (map position_loss (filter unmasked xs)).
Proof.
  induction xs as [|[s l] xs IH]; simpl; [reflexivity|].
  rewrite IH. unfold masked_loss, unmasked, ne_mask, position_loss. simpl.
  destruct (Z.eqb l (-1)); simpl; ring.
Qed.

Lemma filter_all_masked (xs : list (score * label)) :
  Forall (fun sl => snd sl = (-1)%Z) xs -> filter unmasked xs = [].
Proof.
  induction 1 as [|[s l] xs Hl _ IH]; simpl; [reflexivity|].
  simpl in Hl. subst l. exact IH.
Qed.

Lemma torch_mean_nonempty (l : list R) :
  l <> [] -> torch_mean l = Some (Rsum l / INR (length l))%R.
Proof. destruct l; [congruence|reflexivity]. Qed.

Lemma loss_eq (pair_scores : list (list score))
  (bond_labels : list (list label)) :
  length (concat bond_labels) = length (concat pair_scores) ->
  concat pair_scores <> [] ->
  loss pair_scores bond_labels
  = Some (Rsum (map position_loss
                    (filter unmasked
                       (combine (concat pair_scores) (concat bond_labels))))
          / INR (length (concat pair_scores)))%R.
Proof.
  intros Hlen Hne. unfold loss, map2.
  set (xs := combine (concat pair_scores) (concat bond_labels)).
  assert (Hxs : length xs = length (concat pair_scores)).
  { unfold xs. rewrite length_combine. lia. }
  rewrite torch_mean_nonempty.
  - now rewrite Rsum_masked, length_map, Hxs.
  - intros Hnil. apply (f_equal (@length R)) in Hnil.
    rewrite length_map, Hxs in Hnil.
    destruct (concat pair_scores); [congruence|discriminate Hnil].
Qed.

(** C1, as the code has it.  The loss of a batch is the sum, over the
    positions whose label is not -1, of the binary cross-entropy of the
    score against the label clamped at 0, divided by the number of all
    positions of the batch, masked ones included; a batch whose labels
    are all -1 has loss 0. *)
Theorem loss_is_mean_over_all_positions
  (pair_scores : list (list score)) (bond_labels : list (list label)) :
  length (concat bond_labels) = length (concat pair_scores) ->
  concat pair_scores <> [] ->
  loss pair_scores bond_labels
  = Some (Rsum (map position_loss
                    (filter unmasked
                       (combine (concat pair_scores) (concat bond_labels))))
          / INR (length (concat pair_scores)))%R
  /\ (Forall (fun l => l = (-1)%Z) (concat bond_labels) ->
      loss pair_scores bond_labels = Some 0%R).
Proof.
  intros Hlen Hne. split; [now apply loss_eq|].
  intros Hall. rewrite loss_eq by assumption. rewrite filter_all_masked.
  - simpl. f_equal. unfold Rdiv. ring.
  - apply Forall_forall. intros [s l] Hin.
    apply in_combine_r in Hin. rewrite Forall_forall in Hall. now apply Hall.
Qed.

Lemma loss_is_mean_over_all_positions_witness :
  loss [[0; 0]%Q; [1; 2]%Q] [[-1; -1]%Z; [-1; -1]%Z] = Some 0%R.
Proof.
  apply (loss_is_mean_over_all_positions
           [[0; 0]%Q; [1; 2]%Q] [[-1; -1]%Z; [-1; -1]%Z]).
  - reflexivity.
  - discriminate.
  - repeat constructor.
Defined.

Lemma position_loss_0_1 : position_loss (@pair score label 0%Q 1%Z) = ln 2.
Proof.
  unfold position_loss, binary_cross_entropy_with_logits, sigmoid. simpl.
  replace (Q2R 0) with 0%R by (unfold Q2R; simpl; now rewrite Rmult_0_l).
  rewrite Ropp_0, exp_0.
  replace (1 + 1)%R with 2%R by lra.
  rewrite ln_Rinv by lra. change (relu 1%Z) with 1%Z. lra.
Qed.

(** C1, as the claim has it: the mean over the positions that are not
    masked.  With scores [0, 0] and labels [1, -1] the code divides the
    one position loss [ln 2] by 2, the claim by 1. *)
Lemma loss_not_over_unmasked :
  loss [[0; 0]%Q] [[1; -1]%Z] = Some (ln 2 / 2)%R
  /\ loss_over_unmasked [[0; 0]%Q] [[1; -1]%Z] = Some (ln 2)
  /\ loss [[0; 0]%Q] [[1; -1]%Z] <> loss_over_unmasked [[0; 0]%Q] [[1; -1]%Z].
Proof.
  assert (H1 : loss [[0; 0]%Q] [[1; -1]%Z] = Some (ln 2 / 2)%R).
  { rewrite loss_eq by (reflexivity || discriminate).
    cbn [concat app combine filter unmasked snd Z.eqb Pos.eqb negb map
         length Rsum fold_right].
    rewrite position_loss_0_1. f_equal. simpl. lra. }
  assert (H2 : loss_over_unmasked [[0; 0]%Q] [[1; -1]%Z] = Some (ln 2)).
  { unfold loss_over_unmasked, torch_mean.
    cbn [concat app combine filter unmasked snd Z.eqb Pos.eqb negb map
         length Rsum fold_right].
    rewrite position_loss_0_1. f_equal. simpl. lra. }
  split; [exact H1|]. split; [exact H2|].
  rewrite H1, H2. intros [= H].
  pose proof ln_lt_2. lra.
Qed.


(** ** The loop *)

Section Loop.

Variables params grads adam_state features : Type.
Variable reactivity_scoring : params -> features -> list (list score).
Variable backward : params -> features -> list (list label) -> grads.
Variable clip_grad_norm_ : Q -> grads -> grads.
Variable adam_step :
  list Q -> adam_state -> params -> grads -> params * adam_state.
Variable param_norm_of : params -> R.
Variable grad_norm_of : grads -> R.

Let step :=
  iterate_step reactivity_scoring backward clip_grad_norm_ adam_step
               param_norm_of grad_norm_of.
Let loop :=
  iterate_loop reactivity_scoring backward clip_grad_norm_ adam_step
               param_norm_of grad_norm_of.

Lemma train_step_config tr b :
  same_config tr
    (fst (train_step backward clip_grad_norm_ adam_step param_norm_of
                     grad_norm_of tr b))
  /\ param_groups
       (fst (train_step backward clip_grad_norm_ adam_step param_norm_of
                        grad_norm_of tr b))
     = param_groups tr.
Proof.
  unfold train_step, same_config.
  destruct (adam_step _ _ _ _) as [p' s']. simpl. auto.
Qed.

Lemma decayed_idem (tr tr' : Trainer params grads adam_state) :
  lr tr' = lr tr -> param_groups tr' = decayed tr -> decayed tr' = decayed tr.
Proof.
  unfold decayed. intros -> ->. now rewrite map_map.
Qed.

(** One pass of the loop body: the configuration stays; a pass that
    reaches the end of the body has written the decayed rate, a pass that
    raises has not; in evaluation mode nothing else of the trainer
    changes. *)
Lemma iterate_step_effect train epoch iters st ib :
  match step train epoch iters st ib with
  | Next st' =>
      same_config (trainer st) (trainer st')
      /\ param_groups (trainer st') = decayed (trainer st)
      /\ (train = false -> same_model (trainer st) (trainer st'))
  | Raise st' =>
      same_config (trainer st) (trainer st')
      /\ param_groups (trainer st') = param_groups (trainer st)
      /\ (train = false -> same_model (trainer st) (trainer st'))
  end.
Proof.
  unfold step, iterate_step. destruct ib as [i b].
  destruct (forward reactivity_scoring (model (trainer st)) b)
    as [[pair_scores top_k]|]; [|unfold same_config, same_model; auto].
  destruct train.
  - pose proof (train_step_config (trainer st) b) as [Hc Hg].
    destruct (train_step _ _ _ _ _ (trainer st) b) as [tr' pg].
    simpl in Hc, Hg.
    destruct (log_freq (trainer st)); [|destruct (Nat.eqb _ 0)]; simpl;
      (split; [exact Hc|]); (split; [|intros; discriminate]); auto;
      unfold decayed; simpl; destruct Hc as [-> _]; now rewrite Hg.
  - destruct (log_freq (trainer st)); [|destruct (Nat.eqb _ 0)]; simpl;
      unfold same_config, same_model, decayed; auto.
Qed.

Lemma same_config_trans (tr1 tr2 tr3 : Trainer params grads adam_state) :
  same_config tr1 tr2 -> same_config tr2 tr3 -> same_config tr1 tr3.
Proof. unfold same_config. intros (-> & -> & ->) (-> & -> & ->). auto. Qed.

Lemma same_model_trans (tr1 tr2 tr3 : Trainer params grads adam_state) :
  same_model tr1 tr2 -> same_model tr2 tr3 -> same_model tr1 tr3.
Proof. unfold same_model. intros (-> & -> & ->) (-> & -> & ->). auto. Qed.

(** The whole loop.  The configuration, [self.lr] included, is never
    written; the rates of the parameter groups are either still the ones
    the call found or the decayed rate; a call that gets through at least
    one batch and returns leaves the decayed rate; in evaluation mode the
    parameters, their gradients and Adam's state are not touched. *)
Lemma iterate_loop_effect train epoch iters batches : forall st,
  let r := loop train epoch iters st batches in
  same_config (trainer st) (after r)
  /\ (train = false -> same_model (trainer st) (after r))
  /\ (param_groups (after r) = param_groups (trainer st)
      \/ param_groups (after r) = decayed (trainer st))
  /\ (batches <> [] -> forall st', r = Next st' ->
      param_groups (trainer st') = decayed (trainer st)).
Proof.
  induction batches as [|ib rest IH]; intros st; cbv zeta.
  - simpl. unfold same_config, same_model.
    split; [auto|]. split; [auto|]. split; [now left|]. congruence.
  - unfold loop. cbn [iterate_loop]. fold (step train epoch iters st ib).
    pose proof (iterate_step_effect train epoch iters st ib) as Hstep.
    destruct (step train epoch iters st ib) as [st1|st1].
    + destruct Hstep as (Hc & Hg & Hm).
      destruct (IH st1) as (Hc' & Hm' & Hg' & Hn'). fold loop.
      assert (Hd : decayed (trainer st1) = decayed (trainer st)).
      { apply decayed_idem; [apply Hc|exact Hg]. }
      split; [eapply same_config_trans; eassumption|].
      split; [intros Ht; eapply same_model_trans; eauto|].
      split.
      * right. destruct Hg' as [-> | ->]; congruence.
      * intros _ st' Hr. destruct rest as [|ib' rest'].
        -- simpl in Hr. injection Hr as <-. exact Hg.
        -- rewrite <- Hd. apply Hn'; [discriminate|exact Hr].
    + simpl. destruct Hstep as (Hc & Hg & Hm).
      split; [exact Hc|]. split; [exact Hm|]. split; [now left|].
      intros _ st' Hr. discriminate Hr.
Qed.

(** After an epoch of at least one batch that returns, in either mode,
    every parameter group is at 0.9 times [self.lr], and [self.lr] is
    the rate the trainer was built with: the number of batches does not
    enter. *)
Lemma rate_after_iterate tr epoch data_loader train st' :
  data_loader <> [] ->
  iterate reactivity_scoring backward clip_grad_norm_ adam_step
          param_norm_of grad_norm_of tr epoch data_loader train = Next st' ->
  param_groups (trainer st') = decayed tr /\ lr (trainer st') = lr tr.
Proof.
  intros Hne Hr. unfold iterate in Hr.
  destruct (iterate_loop_effect train epoch (length data_loader)
              (enumerate data_loader) (mkLoop tr empty_window []))
    as (Hc & _ & _ & Hn).
  fold loop in Hr. cbv zeta in Hc, Hn. rewrite Hr in Hc. split.
  - apply Hn; [|exact Hr]. destruct data_loader; [congruence|discriminate].
  - apply Hc.
Qed.

(** An evaluation epoch, however it ends, leaves the parameters, their
    gradients and Adam's state as they were. *)
Lemma test_keeps_model tr epoch test_data :
  same_model tr
    (after (test reactivity_scoring backward clip_grad_norm_ adam_step
                 param_norm_of grad_norm_of tr epoch test_data)).
Proof.
  unfold test, iterate.
  destruct (iterate_loop_effect false epoch (length test_data)
              (enumerate test_data) (mkLoop tr empty_window []))
    as (_ & Hm & _).
  now apply Hm.
Qed.

End Loop.

(** C4. Two training steps from the rate 1 (Adam has stepped twice)
    leave the rate 0.9, the value one step leaves, and not 0.9 * 0.9; and
    an evaluation epoch of one batch writes the same 0.9. *)
Theorem learning_rate_is_not_compounded :
  param_groups (after (sample_train sample_trainer 0 [sample_batch]))
  = [9 # 10]
  /\ param_groups
       (after (sample_train sample_trainer 0 [sample_batch; sample_batch]))
     = [9 # 10]
  /\ optimizer_state
       (after (sample_train sample_trainer 0 [sample_batch; sample_batch]))
     = 2
  /\ ~ (9 # 10 == (9 # 10) ^ 2 * 1)%Q
  /\ param_groups (after (sample_test sample_trainer 0 [sample_batch]))
     = [9 # 10].
Proof.
  split; [reflexivity|]. split; [reflexivity|]. split; [reflexivity|].
  split; [|reflexivity]. intros H. discriminate H.
Qed.

(** C5. An evaluation epoch of one batch on a trainer built with the
    rate 1 leaves its one parameter group at 0.9. *)
Theorem test_rewrites_learning_rate :
  param_groups sample_trainer = [1%Q]
  /\ param_groups (after (sample_test sample_trainer 0 [sample_batch]))
     = [9 # 10]
  /\ ~ (1 == 9 # 10)%Q.
Proof.
  split; [reflexivity|]. split; [reflexivity|]. intros H. discriminate H.
Qed.


(** ** The shape of the top-k table *)

Lemma select_top_k_rows (blabels : list (list label))
  (pair_scores : list (list score)) :
  Forall2 (fun (ls : list label) (ss : list score) => length ls = length ss)
          blabels pair_scores ->
  match select_top_k pair_scores blabels with
  | None => exists row, In row pair_scores /\ length row < 20
  | Some top_k =>
      Forall (fun row : list score => 20 <= length row) pair_scores
      /\ Forall2 (fun (row : list score) (T : list nat) =>
                    length T = 20 /\ NoDup T
                    /\ forall t, In t T -> t < length row)
                 pair_scores top_k
  end.
Proof.
  unfold select_top_k, map2.
  induction 1 as [|ls ss bl ps Hlen HF IH]; simpl.
  - split; constructor.
  - assert (Hrow : length (masked_row ls ss) = length ss).
    { unfold masked_row. rewrite length_map2. lia. }
    destruct (topk 20 (masked_row ls ss)) as [T|] eqn:HT.
    + destruct (traverse (topk 20) _) as [Ts|].
      * destruct IH as [Hall Hrows].
        pose proof (topk_spec _ _ _ HT) as (H20 & Hnd & Hlt & _).
        rewrite Hrow in Hlt.
        assert (20 <= length ss).
        { unfold topk in HT. rewrite Hrow in HT.
          destruct (Nat.ltb_spec (length ss) 20); [discriminate|assumption]. }
        split; constructor; auto.
      * destruct IH as (row & Hin & Hshort). exists row. split; [now right|easy].
    + exists ss. split; [now left|].
      unfold topk in HT. rewrite Hrow in HT.
      destruct (Nat.ltb_spec (length ss) 20); [assumption|discriminate].
Qed.

(** X13. The last two lines of [ReactivityNet.forward], on score and
    label tensors of one shape.  [torch.topk] raises exactly when some
    example has fewer than 20 atom pairs; otherwise the table has one row
    per example, and every row holds 20 pairwise distinct positions of
    that example's score row. *)
Theorem select_top_k_shape (pair_scores : list (list score))
  (blabels : list (list label)) :
  Forall2 (fun (ls : list label) (ss : list score) => length ls = length ss)
          blabels pair_scores ->
  (select_top_k pair_scores blabels = None
   <-> exists row, In row pair_scores /\ length row < 20)
  /\ (forall top_k, select_top_k pair_scores blabels = Some top_k ->
      length top_k = length pair_scores
      /\ forall i row T,
           nth_error pair_scores i = Some row -> nth_error top_k i = Some T ->
           length T = 20 /\ NoDup T /\ forall t, In t T -> t < length row).
Proof.
  intros Hshape. pose proof (select_top_k_rows _ _ Hshape) as H.
  destruct (select_top_k pair_scores blabels) as [top_k|].
  - destruct H as [Hall Hrows]. split.
    + split; [discriminate|]. intros (row & Hin & Hshort).
      rewrite Forall_forall in Hall. specialize (Hall _ Hin). lia.
    + intros ? [= <-]. split.
      * symmetry. eapply Forall2_length; eassumption.
      * clear Hall Hshape. induction Hrows as [|r T' rs Ts Hr _ IH];
          intros [|i] row T; simpl; try discriminate.
        -- now intros [= <-] [= <-].
        -- apply IH.
  - split; [now split|]. discriminate.
Qed.

Lemma select_top_k_shape_witness :
  Forall2 (fun (ls : list label) (ss : list score) => length ls = length ss)
          [sample_labels] [sample_scores]
  /\ ((select_top_k [sample_scores] [sample_labels] = None
       <-> exists row, In row [sample_scores] /\ length row < 20)
      /\ (forall top_k,
          select_top_k [sample_scores] [sample_labels] = Some top_k ->
          length top_k = length [sample_scores]
          /\ forall i row T,
               nth_error [sample_scores] i = Some row ->
               nth_error top_k i = Some T ->
               length T = 20 /\ NoDup T /\ forall t, In t T -> t < length row)).
Proof.
  assert (H : Forall2 (fun (ls : list label) (ss : list score) =>
                         length ls = length ss)
                      [sample_labels] [sample_scores])
    by (repeat constructor).
  split; [exact H|].
  exact (select_top_k_shape [sample_scores] [sample_labels] H).
Defined.

(** ** Accuracy at 10 and at 20 *)

Lemma all_correct_le_1 mol_hits : all_correct mol_hits <= 1.
Proof. unfold all_correct. destruct (forallb _ _); lia. Qed.

Lemma In_firstn {A : Type} (n : nat) (l : list A) (x : A) :
  In x (firstn n l) -> In x l.
Proof.
  intros H. rewrite <- (firstn_skipn n l). apply in_or_app. now left.
Qed.

Lemma all_correct_10_le_20 bond_labels top_k i :
  all_correct_10 bond_labels top_k i <= all_correct_20 bond_labels top_k i.
Proof.
  pose proof (all_correct_10_iff bond_labels top_k i) as H10.
  pose proof (all_correct_20_iff bond_labels top_k i) as H20.
  pose proof (all_correct_le_1
                (hits (mol_labels bond_labels i)
                      (firstn 10 (mol_topk top_k i)))) as Hle.
  fold (all_correct_10 bond_labels top_k i) in Hle.
  destruct (Nat.eq_dec (all_correct_10 bond_labels top_k i) 1) as [E|E];
    [|lia].
  rewrite E. apply Nat.eq_le_incl. symmetry. apply H20.
  intros c Hc. apply (In_firstn 10). now apply H10.
Qed.

Lemma sum_map_le (f g : nat -> nat) (l : list nat) :
  (forall i, f i <= g i) ->
  fold_right Nat.add 0 (map f l) <= fold_right Nat.add 0 (map g l).
Proof.
  intros Hfg. induction l as [|i l IH]; simpl; [lia|].
  specialize (Hfg i). lia.
Qed.

Lemma sum_map_le_length (g : nat -> nat) (l : list nat) :
  (forall i, g i <= 1) -> fold_right Nat.add 0 (map g l) <= length l.
Proof.
  intros Hg. induction l as [|i l IH]; simpl; [lia|].
  specialize (Hg i). lia.
Qed.

Lemma batch_acc_10_le_20 bond_labels top_k :
  batch_acc (all_correct_10 bond_labels top_k) top_k
  <= batch_acc (all_correct_20 bond_labels top_k) top_k.
Proof. apply sum_map_le, all_correct_10_le_20. Qed.

(** X14. Lines 103 to 109.  An example counted at 10 is counted at 20,
    an example counts at most once, and so the two sums of a batch are
    ordered and bounded by the batch size: neither accuracy of a window
    exceeds 1, and accuracy at 10 never exceeds accuracy at 20. *)
Theorem accuracy_10_le_20 (bond_labels : list (list label))
  (top_k : list (list nat)) :
  (forall i, all_correct_10 bond_labels top_k i
             <= all_correct_20 bond_labels top_k i
             /\ all_correct_20 bond_labels top_k i <= 1)
  /\ batch_acc (all_correct_10 bond_labels top_k) top_k
     <= batch_acc (all_correct_20 bond_labels top_k) top_k
  /\ batch_acc (all_correct_20 bond_labels top_k) top_k <= length top_k.
Proof.
  split; [|split].
  - intros i. split; [apply all_correct_10_le_20|apply all_correct_le_1].
  - apply batch_acc_10_le_20.
  - unfold batch_acc.
    pose proof (sum_map_le_length (all_correct_20 bond_labels top_k)
                  (seq 0 (length top_k))
                  (fun i => all_correct_le_1 _)) as H.
    now rewrite length_seq in H.
Qed.

(** ** Epochs *)

Section Epochs.

Variables params grads adam_state features : Type.
Variable reactivity_scoring : params -> features -> list (list score).
Variable backward : params -> features -> list (list label) -> grads.
Variable clip_grad_norm_ : Q -> grads -> grads.
Variable adam_step :
  list Q -> adam_state -> params -> grads -> params * adam_state.
Variable param_norm_of : params -> R.
Variable grad_norm_of : grads -> R.

Local Abbreviation run :=
  (iterate reactivity_scoring backward clip_grad_norm_ adam_step
           param_norm_of grad_norm_of).
Local Abbreviation body :=
  (iterate_step reactivity_scoring backward clip_grad_norm_ adam_step
                param_norm_of grad_norm_of).
Local Abbreviation loop :=
  (iterate_loop reactivity_scoring backward clip_grad_norm_ adam_step
                param_norm_of grad_norm_of).
Local Abbreviation optimize :=
  (train_step backward clip_grad_norm_ adam_step param_norm_of grad_norm_of).

Lemma decayed_after (tr tr' : Trainer params grads adam_state) :
  same_config tr tr' ->
  param_groups tr' = param_groups tr \/ param_groups tr' = decayed tr ->
  decayed tr' = decayed tr
  /\ length (param_groups tr') = length (param_groups tr).
Proof.
  intros (Hlr & _) [Hg|Hg]; unfold decayed in *; rewrite Hg, Hlr.
  - auto.
  - now rewrite map_map, length_map.
Qed.

(** X15. [ReactivityTrainer.iterate], in either mode and however the
    call ends, writes nothing of the configuration, [self.lr] included,
    and keeps the number of parameter groups; their rates are either the
    ones the call found or 0.9 times [self.lr]; the rate a later pass
    would write is the same one; in evaluation mode the parameters, their
    gradients and Adam's state are not touched either; and an empty
    loader leaves the trainer as it is. *)
Theorem iterate_writes_only_the_rates
  (tr : Trainer params grads adam_state) (epoch : nat)
  (data_loader : list (batch features)) (train : bool) :
  same_config tr (after (run tr epoch data_loader train))
  /\ (param_groups (after (run tr epoch data_loader train)) = param_groups tr
      \/ param_groups (after (run tr epoch data_loader train)) = decayed tr)
  /\ length (param_groups (after (run tr epoch data_loader train)))
     = length (param_groups tr)
  /\ decayed (after (run tr epoch data_loader train)) = decayed tr
  /\ (train = false -> same_model tr (after (run tr epoch data_loader train)))
  /\ run tr epoch [] train = Next (mkLoop tr empty_window []).
Proof.
  unfold iterate.
  destruct (iterate_loop_effect _ _ _ _ reactivity_scoring backward
              clip_grad_norm_ adam_step param_norm_of grad_norm_of
              train epoch (length data_loader)
              (enumerate data_loader) (mkLoop tr empty_window []))
    as (Hc & Hm & Hg & _).
  cbn [trainer] in Hc, Hm, Hg.
  destruct (decayed_after _ _ Hc Hg) as [Hd Hl].
  repeat (split; [assumption|]). reflexivity.
Qed.

(** X16. Two epochs in a row, of any modes and over any non-empty
    loaders, that both return: after the first and after the second every
    parameter group holds the same rate, 0.9 times the rate the trainer
    was built with. *)
Theorem rate_is_the_same_after_every_epoch
  (tr : Trainer params grads adam_state) (epoch1 epoch2 : nat)
  (loader1 loader2 : list (batch features)) (train1 train2 : bool)
  (st1 st2 : loop_state params grads adam_state) :
  loader1 <> [] -> loader2 <> [] ->
  run tr epoch1 loader1 train1 = Next st1 ->
  run (trainer st1) epoch2 loader2 train2 = Next st2 ->
  param_groups (trainer st1) = decayed tr
  /\ param_groups (trainer st2) = decayed tr
  /\ lr (trainer st2) = lr tr.
Proof.
  intros Hne1 Hne2 Hr1 Hr2.
  destruct (rate_after_iterate _ _ _ _ _ _ _ _ _ _ _ _ _ _ _ Hne1 Hr1)
    as [Hg1 Hl1].
  destruct (rate_after_iterate _ _ _ _ _ _ _ _ _ _ _ _ _ _ _ Hne2 Hr2)
    as [Hg2 Hl2].
  split; [exact Hg1|]. split; [|congruence].
  rewrite Hg2. apply decayed_idem; assumption.
Qed.

(** X17. With [log_freq=0] the first batch that gets through the forward
    pass raises at [(i+1) % self.log_freq], whatever the mode: nothing is
    logged and the rates are not rewritten, but in training mode the
    optimizer has already stepped on that batch. *)
Theorem log_freq_zero_raises
  (tr : Trainer params grads adam_state) (epoch : nat)
  (b : batch features) (rest : list (batch features)) (train : bool) :
  log_freq tr = 0 ->
  forward reactivity_scoring (model tr) b <> None ->
  exists st,
    run tr epoch (b :: rest) train = Raise st
    /\ logs st = []
    /\ trainer st = (if train then fst (optimize tr b) else tr)
    /\ param_groups (trainer st) = param_groups tr.
Proof.
  intros Hfreq Hfwd. unfold iterate, enumerate.
  cbn [length seq combine iterate_loop iterate_step trainer win logs].
  destruct (forward reactivity_scoring (model tr) b) as [[pair_scores top_k]|];
    [clear Hfwd|congruence].
  destruct train.
  - pose proof (train_step_config _ _ _ _ backward clip_grad_norm_ adam_step
                  param_norm_of grad_norm_of tr b) as [[Hlr _] Hg].
    destruct (optimize tr b) as [tr' pg]. cbn [fst] in *.
    rewrite Hfreq. eexists. split; [reflexivity|]. cbn [logs trainer]. auto.
  - rewrite Hfreq. eexists. split; [reflexivity|]. cbn [logs trainer]. auto.
Qed.

(** *** The progress records *)

(** What every record of a call holds. *)
Let record_of (train : bool) (epoch iters freq : nat) (lg : log_record) : Prop :=
  log_epoch lg = epoch /\ log_iters lg = iters
  /\ log_iter lg mod freq = 0
  /\ (log_norms lg <> None <-> train = true)
  /\ snd (log_acc10 lg) = snd (log_acc20 lg)
  /\ fst (log_acc10 lg) <= fst (log_acc20 lg).

Lemma iterate_step_logs train epoch iters st i b :
  sum_acc_10 (win st) <= sum_acc_20 (win st) ->
  match body train epoch iters st (i, b) with
  | Next st' =>
      sum_acc_10 (win st') <= sum_acc_20 (win st')
      /\ exists new,
           logs st' = logs st ++ new
           /\ map log_iter new
              = (if Nat.eqb ((i + 1) mod log_freq (trainer st)) 0
                 then [i + 1] else [])
           /\ Forall (record_of train epoch iters (log_freq (trainer st))) new
  | Raise st' => logs st' = logs st
  end.
Proof.
  intros Hwin. unfold iterate_step.
  destruct (forward reactivity_scoring (model (trainer st)) b)
    as [[pair_scores top_k]|]; [|reflexivity].
  pose proof (batch_acc_10_le_20 (bond_labels b) top_k) as Hacc.
  assert (Hrec : forall (tr1 : Trainer params grads adam_state) avg gsum f,
    (i + 1) mod S f = 0 ->
    record_of train epoch iters (S f)
      (mkLog epoch (i + 1) iters avg
         (sum_acc_10 (win st)
          + batch_acc (all_correct_10 (bond_labels b) top_k) top_k,
          S f * length top_k)
         (sum_acc_20 (win st)
          + batch_acc (all_correct_20 (bond_labels b) top_k) top_k,
          S f * length top_k)
         (if train then Some (param_norm_of (model (trainer st)), gsum)
          else None))).
  { intros tr1 avg gsum f Hmod. unfold record_of. cbn.
    repeat split; auto; try lia; destruct train; congruence. }
  destruct train.
  - destruct (optimize (trainer st) b) as [tr' [pnorm gnorm]] eqn:Hopt.
    assert (Hp : pnorm = param_norm_of (model (trainer st))).
    { unfold train_step in Hopt. destruct (adam_step _ _ _ _).
      now injection Hopt as _ <- _. }
    cbn [fst snd].
    destruct (log_freq (trainer st)) as [|f] eqn:Hf; [reflexivity|].
    destruct (Nat.eqb ((i + 1) mod S f) 0) eqn:Hmod.
    + cbn [win logs sum_acc_10 sum_acc_20 empty_window].
      split; [lia|]. eexists. split; [reflexivity|]. split; [reflexivity|].
      constructor; [|constructor]. subst pnorm.
      apply (Hrec tr'). now apply Nat.eqb_eq.
    + cbn [win logs sum_acc_10 sum_acc_20].
      split; [lia|]. exists []. rewrite app_nil_r. repeat split. constructor.
  - destruct (log_freq (trainer st)) as [|f] eqn:Hf; [reflexivity|].
    destruct (Nat.eqb ((i + 1) mod S f) 0) eqn:Hmod.
    + cbn [win logs sum_acc_10 sum_acc_20 empty_window].
      split; [lia|]. eexists. split; [reflexivity|]. split; [reflexivity|].
      constructor; [|constructor].
      apply (Hrec (trainer st) _ 0%R). now apply Nat.eqb_eq.
    + cbn [win logs sum_acc_10 sum_acc_20].
      split; [lia|]. exists []. rewrite app_nil_r. repeat split. constructor.
Qed.

Lemma iterate_loop_logs train epoch iters batches : forall st,
  sum_acc_10 (win st) <= sum_acc_20 (win st) ->
  exists new,
    logs (final (loop train epoch iters st batches)) = logs st ++ new
    /\ Forall (record_of train epoch iters (log_freq (trainer st))) new
    /\ incl (map log_iter new) (map (fun ib => fst ib + 1) batches)
    /\ (forall st', loop train epoch iters st batches = Next st' ->
        map log_iter new
        = filter (fun n => Nat.eqb (n mod log_freq (trainer st)) 0)
                 (map (fun ib => fst ib + 1) batches)).
Proof.
  induction batches as [|[i b] rest IH]; intros st Hwin.
  - exists []. cbn. rewrite app_nil_r. repeat split; auto.
    intros x [].
  - cbn [iterate_loop].
    pose proof (iterate_step_logs train epoch iters st i b Hwin) as Hstep.
    pose proof (iterate_step_effect _ _ _ _ reactivity_scoring backward
                  clip_grad_norm_ adam_step param_norm_of grad_norm_of
                  train epoch iters st (i, b)) as Heff.
    cbv zeta in Heff.
    destruct (body train epoch iters st (i, b)) as [st1|st1].
    + destruct Hstep as (Hwin1 & new1 & Hlogs1 & Hiter1 & Hrec1).
      destruct Heff as ((_ & _ & Hfreq) & _).
      destruct (IH st1 Hwin1) as (new2 & Hlogs2 & Hrec2 & Hin2 & Hret2).
      rewrite Hfreq in Hrec2, Hret2.
      exists (new1 ++ new2). rewrite Hlogs2, Hlogs1, app_assoc.
      split; [reflexivity|]. split; [now apply Forall_app|].
      rewrite map_app. cbn [map filter fst]. split.
      * apply incl_app.
        -- rewrite Hiter1. destruct (Nat.eqb _ 0); intros x Hx;
             [destruct Hx as [<-|[]]; now left|destruct Hx].
        -- now apply incl_tl.
      * intros st' Hr. rewrite (Hret2 st' Hr), Hiter1.
        now destruct (Nat.eqb ((i + 1) mod log_freq (trainer st)) 0).
    + cbn [final]. exists []. rewrite app_nil_r.
      split; [exact Hstep|]. split; [constructor|].
      split; [intros x []|]. discriminate.
Qed.

Lemma enumerate_iters {A : Type} (l : list A) :
  map (fun ib : nat * A => fst ib + 1) (enumerate l) = seq 1 (length l).
Proof.
  unfold enumerate. rewrite <- (map_map fst (fun i => i + 1)).
  rewrite combine_seq_keys, <- seq_shift. apply map_ext. intros i. lia.
Qed.

(** X18. Lines 111 to 140.  However a call of [iterate] ends, every
    record it has logged carries the epoch and the loader's length, an
    iteration number between 1 and that length that is a multiple of
    [log_freq], the norms in training mode and only there, one divisor
    for both accuracies and a sum at 10 that does not exceed the sum at
    20; and a call that returns has logged exactly one record for every
    multiple of [log_freq] up to the loader's length, in order. *)
Theorem records_at_multiples_of_log_freq
  (tr : Trainer params grads adam_state) (epoch : nat)
  (data_loader : list (batch features)) (train : bool) :
  Forall (fun lg =>
            log_epoch lg = epoch /\ log_iters lg = length data_loader
            /\ 1 <= log_iter lg <= length data_loader
            /\ log_iter lg mod log_freq tr = 0
            /\ (log_norms lg <> None <-> train = true)
            /\ snd (log_acc10 lg) = snd (log_acc20 lg)
            /\ fst (log_acc10 lg) <= fst (log_acc20 lg))
         (logs (final (run tr epoch data_loader train)))
  /\ (forall st, run tr epoch data_loader train = Next st ->
      map log_iter (logs st) = logged_iters (log_freq tr) (length data_loader)).
Proof.
  unfold iterate, logged_iters.
  destruct (iterate_loop_logs train epoch (length data_loader)
              (enumerate data_loader) (mkLoop tr empty_window []))
    as (new & Hlogs & Hrec & Hin & Hret); [cbn; lia|].
  cbn [logs trainer app] in Hlogs, Hrec, Hret.
  rewrite enumerate_iters in Hin, Hret. split.
  - rewrite Hlogs. apply Forall_forall. intros lg Hlg.
    rewrite Forall_forall in Hrec.
    destruct (Hrec lg Hlg) as (He & Hi & Hm & Hn & Hd & Ha).
    assert (Hseq : In (log_iter lg) (seq 1 (length data_loader)))
      by (apply Hin; now apply in_map).
    apply in_seq in Hseq.
    split; [exact He|]. split; [exact Hi|]. split; [lia|].
    split; [exact Hm|]. split; [exact Hn|]. split; [exact Hd|exact Ha].
  - intros st Hr. specialize (Hret st Hr).
    rewrite Hr in Hlogs. cbn [final] in Hlogs. now rewrite Hlogs.
Qed.

End Epochs.

Lemma rate_is_the_same_after_every_epoch_witness :
  [sample_batch] <> []
  /\ param_groups
       (after (sample_train sample_trainer 0 [sample_batch])) = [9 # 10]
  /\ param_groups
       (after (sample_test
                 (after (sample_train sample_trainer 0 [sample_batch]))
                 1 [sample_batch])) = [9 # 10].
Proof.
  split; [discriminate|].
  assert (Hne : [sample_batch] <> []) by discriminate.
  destruct (rate_is_the_same_after_every_epoch
              unit unit nat (list (list score))
              sample_forward sample_backward sample_clip sample_adam
              sample_norm sample_norm
              sample_trainer 0 1 [sample_batch] [sample_batch] true false
              (final (sample_train sample_trainer 0 [sample_batch]))
              (final (sample_test
                        (after (sample_train sample_trainer 0 [sample_batch]))
                        1 [sample_batch]))
              Hne Hne eq_refl eq_refl) as (H1 & H2 & _).
  split; [exact H1|exact H2].
Defined.

Lemma log_freq_zero_raises_witness :
  exists st,
    sample_train sample_trainer_0 0 [sample_batch; sample_batch] = Raise st
    /\ logs st = []
    /\ optimizer_state (trainer st) = 1
    /\ param_groups (trainer st) = [1%Q].
Proof.
  assert (Hfwd : forward sample_forward (model sample_trainer_0) sample_batch
                 <> None) by (vm_compute; discriminate).
  destruct (log_freq_zero_raises
              unit unit nat (list (list score))
              sample_forward sample_backward sample_clip sample_adam
              sample_norm sample_norm
              sample_trainer_0 0 sample_batch [sample_batch] true
              eq_refl Hfwd) as (st & Hr & Hl & Ht & Hg).
  exists st. split; [exact Hr|]. split; [exact Hl|].
  split; [now rewrite Ht|exact Hg].
Defined.

(** ** Padding masks *)

Lemma arange_mask_prefix (width : nat) (n : Z) :
  arange_mask width n = prefix_mask width n.
Proof.
  unfold arange_mask, prefix_mask.
  induction width as [|w IH]; [now rewrite Nat.min_0_r|].
  rewrite seq_S, map_app, IH. cbn [map Nat.add].
  destruct (Z.ltb_spec (Z.of_nat w) n) as [Hlt|Hge].
  - replace (Nat.min (Z.to_nat n) w) with w by lia.
    replace (Nat.min (Z.to_nat n) (S w)) with (S w) by lia.
    replace (w - Z.to_nat n) with 0 by lia.
    replace (S w - Z.to_nat n) with 0 by lia.
    cbn [repeat]. rewrite !app_nil_r. now rewrite repeat_cons.
  - replace (Nat.min (Z.to_nat n) (S w)) with (Nat.min (Z.to_nat n) w) by lia.
    replace (S w - Z.to_nat n) with (S (w - Z.to_nat n)) by lia.
    cbn [repeat]. now rewrite <- app_assoc, (repeat_cons _ false).
Qed.

Lemma fold_max_bounds (n : Z) (ns : list Z) :
  In (fold_right Z.max n ns) (n :: ns)
  /\ Forall (fun m => (m <= fold_right Z.max n ns)%Z) (n :: ns).
Proof.
  induction ns as [|m ns [IHin IHle]]; cbn [fold_right].
  - split; [now left|]. constructor; [lia|constructor].
  - split.
    + destruct (Z.max_spec m (fold_right Z.max n ns)) as [[_ ->]|[_ ->]].
      * destruct IHin as [<-|Hin]; [now left|now right; right].
      * now right; left.
    + inversion IHle as [|? ? Hn Hns]; subst.
      constructor; [lia|]. constructor; [lia|].
      eapply Forall_impl; [|exact Hns]. cbv beta. intros; lia.
Qed.

Lemma count_prefix_mask (width : nat) (n : Z) :
  length (prefix_mask width n) = width
  /\ count_occ bool_dec (prefix_mask width n) true
     = Nat.min (Z.to_nat n) width.
Proof.
  unfold prefix_mask. split.
  - rewrite length_app, !repeat_length. lia.
  - rewrite count_occ_app, count_occ_repeat_eq by reflexivity.
    rewrite count_occ_repeat_neq by discriminate. lia.
Qed.

(** X19. Lines 63 to 69, the padding masks.  An atom's ten neighbour
    slots are on up to its number of bonds, so an atom with more than ten
    bonds has all ten on.  The atom mask is as wide as the largest
    example of the batch, that width is the atom count of some example,
    and the row of an example has exactly its atom count of slots on, the
    leading ones; there is no mask for an empty batch or when every count
    is negative. *)
Theorem padding_masks (n_bonds : list (list Z)) (n_atoms : list Z) :
  mask_neis n_bonds = map (map (prefix_mask 10)) n_bonds
  /\ (mask_atoms n_atoms = None
      <-> n_atoms = [] \/ Forall (fun n => (n < 0)%Z) n_atoms)
  /\ (forall mask, mask_atoms n_atoms = Some mask ->
      exists width : nat,
        In (Z.of_nat width) n_atoms
        /\ Forall (fun n => (n <= Z.of_nat width)%Z) n_atoms
        /\ mask = map (prefix_mask width) n_atoms
        /\ Forall2 (fun n row =>
                      length row = width
                      /\ count_occ bool_dec row true = Z.to_nat n)
                   n_atoms mask).
Proof.
  split; [|split].
  - unfold mask_neis. apply map_ext. intros row. apply map_ext.
    intros n. apply arange_mask_prefix.
  - unfold mask_atoms. destruct n_atoms as [|n ns]; [intuition|].
    destruct (fold_max_bounds n ns) as [Hin Hle].
    destruct (Z.ltb_spec (fold_right Z.max n ns) 0) as [Hneg|Hpos].
    + split; [intros _; right|reflexivity].
      eapply Forall_impl; [|exact Hle]. cbv beta. intros; lia.
    + split; [discriminate|]. intros [Hnil|Hall]; [discriminate|].
      rewrite Forall_forall in Hall. specialize (Hall _ Hin). lia.
  - intros mask. unfold mask_atoms. destruct n_atoms as [|n ns]; [discriminate|].
    destruct (fold_max_bounds n ns) as [Hin Hle].
    destruct (Z.ltb_spec (fold_right Z.max n ns) 0) as [Hneg|Hpos];
      [discriminate|].
    set (w := fold_right Z.max n ns) in *. intros Hm.
    assert (Hmask : mask = map (arange_mask (Z.to_nat w)) (n :: ns))
      by congruence.
    assert (Hrows : map (arange_mask (Z.to_nat w)) (n :: ns)
                    = map (prefix_mask (Z.to_nat w)) (n :: ns))
      by (apply map_ext; intros m; apply arange_mask_prefix).
    exists (Z.to_nat w). rewrite Z2Nat.id by exact Hpos.
    split; [exact Hin|]. split; [exact Hle|].
    rewrite Hmask, Hrows. split; [reflexivity|].
    revert Hle. generalize (n :: ns). intros l Hle.
    induction Hle as [|m l Hm' _ IH]; cbn [map]; constructor; [|exact IH].
    destruct (count_prefix_mask (Z.to_nat w) m) as [-> ->]. lia.
Qed.

(** ** The loss and the masked positions *)

Lemma map2_masked_loss_ext : forall (a1 a2 : list score) (ls : list label),
  length a1 = length a2 ->
  (forall c l, nth_error ls c = Some l -> l <> (-1)%Z ->
     nth_error a1 c = nth_error a2 c) ->
  map2 masked_loss a1 ls = map2 masked_loss a2 ls.
Proof.
  unfold map2. induction a1 as [|x a1 IH]; intros [|y a2] ls Hlen Hagree;
    try discriminate; [reflexivity|].
  destruct ls as [|l ls]; [reflexivity|]. cbn [combine map fst snd]. f_equal.
  - unfold masked_loss, ne_mask.
    destruct (Z.eqb_spec l (-1)) as [->|Hl]; [ring|].
    specialize (Hagree 0 l eq_refl Hl). cbn in Hagree. congruence.
  - apply IH; [now injection Hlen|].
    intros c l' Hc Hl'. exact (Hagree (S c) l' Hc Hl').
Qed.

(** X20. Lines 74 to 77.  The loss of a batch does not depend on the
    scores at the positions labelled -1: two score tensors of one shape
    that agree wherever the label is not -1 have the same loss. *)
Theorem loss_ignores_masked_scores (scores1 scores2 : list (list score))
  (bond_labels : list (list label)) :
  length (concat scores1) = length (concat scores2) ->
  (forall c l, nth_error (concat bond_labels) c = Some l -> l <> (-1)%Z ->
     nth_error (concat scores1) c = nth_error (concat scores2) c) ->
  loss scores1 bond_labels = loss scores2 bond_labels.
Proof.
  intros Hlen Hagree. unfold loss. f_equal.
  now apply map2_masked_loss_ext.
Qed.

Lemma loss_ignores_masked_scores_witness :
  nth_error sample_labels 20 = Some (-1)%Z
  /\ nth_error sample_scores 20 <> nth_error sample_scores_other 20
  /\ loss [sample_scores] [sample_labels]
     = loss [sample_scores_other] [sample_labels].
Proof.
  split; [reflexivity|]. split; [cbn; discriminate|].
  apply loss_ignores_masked_scores; [reflexivity|].
  intros c l Hc Hl.
  do 21 (destruct c as [|c]; [cbn in *; congruence|]).
  cbn in Hc. destruct c; discriminate.
Defined.

Lemma sigmoid_range (x : R) : (0 < sigmoid x < 1)%R.
Proof.
  unfold sigmoid. pose proof (exp_pos (- x)) as He.
  set (e := exp (- x)) in *.
  assert (Hy : (0 < / (1 + e))%R) by (apply Rinv_0_lt_compat; lra).
  assert (Hone : ((1 + e) * / (1 + e) = 1)%R) by (apply Rinv_r; lra).
  assert (Hey : (0 < e * / (1 + e))%R) by now apply Rmult_lt_0_compat.
  lra.
Qed.

Lemma ln_below_one (y : R) : (0 < y < 1)%R -> (ln y < 0)%R.
Proof. intros [H0 H1]. rewrite <- ln_1. now apply ln_increasing. Qed.

Lemma masked_loss_nonneg (s : score) (l : label) :
  (-1 <= l <= 1)%Z -> (0 <= masked_loss s l)%R.
Proof.
  intros Hl. unfold masked_loss, binary_cross_entropy_with_logits, ne_mask, relu.
  pose proof (sigmoid_range (Q2R s)) as Hs.
  pose proof (ln_below_one (sigmoid (Q2R s)) Hs) as H1.
  assert (H0 : (ln (1 - sigmoid (Q2R s)) < 0)%R) by (apply ln_below_one; lra).
  assert (Hcase : l = (-1)%Z \/ l = 0%Z \/ l = 1%Z) by lia.
  destruct Hcase as [->|[->| ->]]; cbn; lra.
Qed.

Lemma Rsum_nonneg (l : list R) :
  Forall (fun x => (0 <= x)%R) l -> (0 <= Rsum l)%R.
Proof.
  unfold Rsum. induction 1 as [|x l Hx _ IH]; cbn [fold_right]; lra.
Qed.

Lemma map2_masked_loss_nonneg : forall (a : list score) (ls : list label),
  Forall (fun l => (-1 <= l <= 1)%Z) ls ->
  Forall (fun x => (0 <= x)%R) (map2 masked_loss a ls).
Proof.
  unfold map2. induction a as [|x a IH]; intros ls Hls; [constructor|].
  destruct ls as [|l ls]; [constructor|].
  inversion Hls; subst. cbn [combine map fst snd].
  constructor; [now apply masked_loss_nonneg|now apply IH].
Qed.

(** X21. Lines 74 to 77, on labels that are -1, 0 or 1: the loss of a
    batch is never negative, and it is a number whenever the batch has a
    position at all. *)
Theorem loss_is_not_negative (pair_scores : list (list score))
  (bond_labels : list (list label)) :
  Forall (Forall (fun l => (-1 <= l <= 1)%Z)) bond_labels ->
  (forall v, loss pair_scores bond_labels = Some v -> (0 <= v)%R)
  /\ (loss pair_scores bond_labels = None
      <-> concat pair_scores = [] \/ concat bond_labels = []).
Proof.
  intros Hlabels. unfold loss.
  assert (Hflat : Forall (fun l => (-1 <= l <= 1)%Z) (concat bond_labels)).
  { induction Hlabels as [|row rows Hrow _ IH]; cbn; [constructor|].
    apply Forall_app. now split. }
  pose proof (map2_masked_loss_nonneg (concat pair_scores) _ Hflat) as Hpos.
  split.
  - intros v Hv.
    destruct (map2 masked_loss _ _) as [|x xs] eqn:E; [discriminate|].
    rewrite torch_mean_nonempty in Hv by discriminate.
    assert (Hval : v = (Rsum (x :: xs) / INR (length (x :: xs)))%R)
      by congruence.
    rewrite Hval. apply Rsum_nonneg in Hpos.
    apply Rmult_le_pos; [exact Hpos|].
    apply Rlt_le, Rinv_0_lt_compat, lt_0_INR. cbn [length]. lia.
  - unfold torch_mean, map2.
    destruct (concat pair_scores) as [|s ss];
      [split; [now left|reflexivity]|].
    destruct (concat bond_labels) as [|l ls];
      [split; [now right|reflexivity]|].
    cbn. split; [discriminate|]. intros [H|H]; discriminate.
Qed.

Lemma loss_is_not_negative_witness :
  Forall (Forall (fun l => (-1 <= l <= 1)%Z)) [sample_labels]
  /\ (forall v, loss [sample_scores] [sample_labels] = Some v -> (0 <= v)%R).
Proof.
  assert (H : Forall (Forall (fun l => (-1 <= l <= 1)%Z)) [sample_labels]).
  { constructor; [|constructor]. apply Forall_forall. intros l Hl.
    cbn in Hl. repeat (destruct Hl as [<-|Hl]; [lia|]). destruct Hl. }
  split; [exact H|].
  exact (proj1 (loss_is_not_negative [sample_scores] [sample_labels] H)).
Defined.

(** ** Checkpoints *)

Lemma append_inj_l (p a b : string) :
  String.append p a = String.append p b -> a = b.
Proof.
  induction p as [|c p IH]; cbn; [auto|]. intros [= H]. auto.
Qed.

Lemma to_int_nonnil (z : Z) :
  Z.to_int z <> Decimal.Pos Decimal.Nil
  /\ Z.to_int z <> Decimal.Neg Decimal.Nil.
Proof.
  destruct z as [|p|p]; cbn; split; intros [= E];
    exact (DecimalPos.Unsigned.to_uint_nonnil p E).
Qed.

Lemma format_d_inj (n m : Z) : format_d n = format_d m -> n = m.
Proof.
  unfold format_d. intros H. apply DecimalZ.to_int_inj.
  destruct (to_int_nonnil n) as [Hn1 Hn2].
  destruct (to_int_nonnil m) as [Hm1 Hm2].
  pose proof (DecimalString.NilZero.isi _ Hn1 Hn2) as En.
  pose proof (DecimalString.NilZero.isi _ Hm1 Hm2) as Em.
  rewrite H in En. congruence.
Qed.

Lemma length_append (a b : string) :
  String.length (String.append a b) = String.length a + String.length b.
Proof. induction a as [|c a IH]; cbn; [reflexivity|now rewrite IH]. Qed.

(** X22. [ReactivityTrainer.save] writes to [file_path] followed by
    [.ep] and the epoch in decimal.  For one [file_path] the path
    determines the epoch, so the checkpoints of two epochs are never the
    same file, and no checkpoint is written to [file_path] itself; with
    the default [file_path] epoch 3 goes to
    [output/trained.model.ep3]. *)
Theorem save_paths_differ (file_path : string) (epoch1 epoch2 : Z) :
  (output_path file_path epoch1 = output_path file_path epoch2 <->
   epoch1 = epoch2)
  /\ output_path file_path epoch1 <> file_path
  /\ output_path "output/trained.model" 3 = "output/trained.model.ep3"%string.
Proof.
  split; [|split].
  - split; [|now intros ->]. unfold output_path. intros H.
    apply append_inj_l in H. apply (append_inj_l ".ep") in H.
    now apply format_d_inj.
  - unfold output_path. intros H. apply (f_equal String.length) in H.
    rewrite !length_append in H. cbn in H. lia.
  - reflexivity.
Qed.

End ReactivityTheory.
